(** * Rate limiter (LLD-Python/rate-limiter/main.py)

    A shallow embedding of the two per-key rate limiters and of the factory
    function, followed by the properties of the specification that the code
    settles.

    Modelling conventions.
    - Python floats (clock readings, the time window, token counts, the refill
      rate) are exact rationals [Q]; the rounding of [+], [-] and [*] is not
      modelled.  A float constant of the source is the rational that the
      binary64 number is.  Python's [int] for [max_requests] is [Z].
    - [time.time()] is an input of every call: a call is a pair of a user id
      and the clock reading taken on its first line.
    - The dictionaries [user_requests] and [buckets] are [gmap string _].  The
      deque and the bucket stored in them are mutated in place by the source;
      the model writes every mutation back into the map.
    - [with self.lock] makes a call atomic; calls are modelled sequentially. *)

From Stdlib Require Import QArith Qminmax ZArith List Lia Lqa.
From stdpp Require Import gmap strings list fin_maps pretty.

Local Open Scope Q_scope.

(** ** Numeric helpers *)

(** Python's [a < b] on numbers, as a boolean. *)
Definition Qltb (a b : Q) : bool := if Qlt_le_dec a b then true else false.

(** Python's [a >= b]. *)
Definition Qgeb (a b : Q) : bool := Qle_bool b a.

(** Python's two-argument [min(a, b)]: [b] when [b < a], otherwise [a]. *)
Definition py_min (a b : Q) : Q := if Qltb b a then b else a.

(** ** The shared contract: class [RateLimiter] *)

Class RateLimiter (L : Type) := {
  allow_requests : L → string → Q → bool * L
}.

(** A call: the user id and the clock reading of that call. *)
Definition call : Type := string * Q.

(** Runs a sequence of calls, in order; returns the decisions and the limiter
    after the last call. *)
Fixpoint run {L} `{RateLimiter L} (self : L) (calls : list call) : list bool * L :=
  match calls with
  | [] => ([], self)
  | (user_id, now) :: rest =>
      let '(ok, self1) := allow_requests self user_id now in
      let '(oks, self2) := run self1 rest in
      (ok :: oks, self2)
  end.

(** ** [SlidingWindowRateLimiter] *)

Module SlidingWindowRateLimiter.

Record t := mk {
  max_requests : Z;
  time_window : Q;
  user_requests : gmap string (list Q)   (* user_id -> deque of timestamps *)
}.

(** [__init__]. *)
Definition init (max_requests : Z) (time_window : Q) : t :=
  mk max_requests time_window ∅.

(** The loop [while requests and requests[0] < cutoff: requests.popleft()],
    with [cutoff] standing for [current_time - self.time_window]. *)
Fixpoint trim (cutoff : Q) (requests : list Q) : list Q :=
  match requests with
  | [] => []
  | r :: rest => if Qltb r cutoff then trim cutoff rest else requests
  end.

Definition set_deque (self : t) (user_id : string) (requests : list Q) : t :=
  mk (max_requests self) (time_window self) (<[user_id := requests]> (user_requests self)).

(** Lines 22-23: a key not yet seen gets an empty deque. *)
Definition ensure (self : t) (user_id : string) : t :=
  match user_requests self !! user_id with
  | Some _ => self
  | None => set_deque self user_id []
  end.

(** The deque of a key, read as empty while the key has no entry; after
    [ensure] it is the deque bound to [requests] at line 25. *)
Definition deque_of (self : t) (user_id : string) : list Q :=
  default [] (user_requests self !! user_id).

Definition allow_requests (self : t) (user_id : string) (current_time : Q) : bool * t :=
  let self := ensure self user_id in
  let requests := trim (current_time - time_window self) (deque_of self user_id) in
  let self := set_deque self user_id requests in
  if (Z.of_nat (length requests) <? max_requests self)%Z
  then (true, set_deque self user_id (requests ++ [current_time]))
  else (false, self).

End SlidingWindowRateLimiter.

Module SW := SlidingWindowRateLimiter.

#[export] Instance sliding_window_limiter : RateLimiter SlidingWindowRateLimiter.t :=
  {| allow_requests := SlidingWindowRateLimiter.allow_requests |}.

(** ** [TokenBucketRateLimiter] *)

Module TokenBucketRateLimiter.

Record bucket := mk_bucket { tokens : Q; last_refill : Q }.

Record t := mk {
  capacity : Q;
  refill_rate : Q;
  buckets : gmap string bucket
}.

(** [__init__] *)
Definition init (capacity refill_rate : Q) : t := mk capacity refill_rate ∅.

Definition set_bucket (self : t) (user_id : string) (b : bucket) : t :=
  mk (capacity self) (refill_rate self) (<[user_id := b]> (buckets self)).

(** Lines 47-48: a key not yet seen gets a full bucket stamped [now]. *)
Definition ensure (self : t) (user_id : string) (now : Q) : t :=
  match buckets self !! user_id with
  | Some _ => self
  | None => set_bucket self user_id (mk_bucket (capacity self) now)
  end.

(** The bucket bound at line 50, after [ensure]. *)
Definition bucket_of (self : t) (user_id : string) (now : Q) : bucket :=
  default (mk_bucket (capacity self) now) (buckets self !! user_id).

(** Lines 53-57 on the bucket itself. *)
Definition refill (capacity refill_rate now : Q) (b : bucket) : bucket :=
  let elapsed := now - last_refill b in
  let refill_tokens := elapsed * refill_rate in
  mk_bucket (py_min capacity (tokens b + refill_tokens)) now.

(** Lines 59-64 on the bucket itself. *)
Definition consume (b : bucket) : bool * bucket :=
  if Qgeb (tokens b) 1
  then (true, mk_bucket (tokens b - 1) (last_refill b))
  else (false, b).

Definition allow_requests (self : t) (user_id : string) (now : Q) : bool * t :=
  let self := ensure self user_id now in
  let b := refill (capacity self) (refill_rate self) now (bucket_of self user_id now) in
  let self := set_bucket self user_id b in
  let '(ok, b) := consume b in
  (ok, set_bucket self user_id b).

End TokenBucketRateLimiter.

Module TB := TokenBucketRateLimiter.

#[export] Instance token_bucket_limiter : RateLimiter TB.t :=
  {| allow_requests := TB.allow_requests |}.

(** ** [RateLimiterFactory] *)

(** What the factory returns: an object of either class, used through the
    contract. *)
Inductive limiter :=
  | SlidingWindowLimiter (l : SW.t)
  | TokenBucketLimiter (l : TB.t).

#[export] Instance any_limiter : RateLimiter limiter := {|
  allow_requests self user_id now :=
    match self with
    | SlidingWindowLimiter l =>
        let '(ok, l) := SW.allow_requests l user_id now in
        (ok, SlidingWindowLimiter l)
    | TokenBucketLimiter l =>
        let '(ok, l) := TB.allow_requests l user_id now in
        (ok, TokenBucketLimiter l)
    end
|}.

Inductive exn := ValueError (msg : string).

(** A call either returns a value or raises. *)
Inductive outcome (A : Type) :=
  | Returned (a : A)
  | Raised (e : exn).
Arguments Returned {A} a.
Arguments Raised {A} e.

(** The value of the expression [100/60] at line 78: the binary64 number
    nearest to 5/3, which is 7505999378950827 / 2^52. *)
Definition hundred_per_minute : Q := 7505999378950827 # 4503599627370496.

Definition RateLimiterFactory (rate_limiter_type : string) : outcome limiter :=
  if String.eqb rate_limiter_type "token_bucket"
  then Returned (TokenBucketLimiter (TB.init 100 hundred_per_minute))
  else if String.eqb rate_limiter_type "sliding_window"
  then Returned (SlidingWindowLimiter (SW.init 100 60))
  else Raised (ValueError ("Unknown Limiter Type: " +:+ rate_limiter_type)).

(** ** Traces *)

(** Clock readings that never go backwards, starting no earlier than [T]. *)
Fixpoint clock_from (T : Q) (ts : list Q) : Prop :=
  match ts with
  | [] => True
  | t :: rest => T <= t ∧ clock_from t rest
  end.

Definition nondecreasing (ts : list Q) : Prop :=
  match ts with
  | [] => True
  | t :: rest => clock_from t rest
  end.

(** The clock readings of the calls for [user_id] that were admitted. *)
Fixpoint admitted (user_id : string) (calls : list call) (oks : list bool) : list Q :=
  match calls, oks with
  | (u, now) :: calls, ok :: oks =>
      if ok && bool_decide (u = user_id)
      then now :: admitted user_id calls oks
      else admitted user_id calls oks
  | _, _ => []
  end.

(** The decisions of the calls for [user_id]. *)
Fixpoint decisions (user_id : string) (calls : list call) (oks : list bool) : list bool :=
  match calls, oks with
  | (u, _) :: calls, ok :: oks =>
      if bool_decide (u = user_id)
      then ok :: decisions user_id calls oks
      else decisions user_id calls oks
  | _, _ => []
  end.

(** The calls for [user_id] alone. *)
Definition only (user_id : string) (calls : list call) : list call :=
  List.filter (λ c, bool_decide (fst c = user_id)) calls.

Fixpoint count (P : Q → bool) (l : list Q) : nat :=
  match l with
  | [] => O
  | a :: l => if P a then S (count P l) else count P l
  end.

(** Membership in the closed window [[lo, hi]]. *)
Definition in_window (lo hi a : Q) : bool := Qle_bool lo a && Qle_bool a hi.

(** Membership in the half-open window [(lo, hi]]. *)
Definition in_window_open (lo hi a : Q) : bool := Qltb lo a && Qle_bool a hi.

(** ** Invariants and views used by the proofs *)

(** No deque ever holds more than [max_requests] timestamps. *)
Definition within_limit (self : SW.t) : Prop :=
  ∀ k, (Z.of_nat (length (SW.deque_of self k))
        ≤ Z.max 0 (SW.max_requests self))%Z.

(** What links the deque of a key to the timestamps admitted for the key so
    far, when no clock reading so far exceeds [T] and none to come is below it:
    the deque is what is left of the admitted timestamps after dropping
    some that are older than [T - W], and no window of length [W] holds
    more than [m] admitted timestamps. *)
Definition tracks (m : Z) (W : Q) (T : Q) (deque adm : list Q) : Prop :=
  (∃ expired, adm = expired ++ deque ∧ Forall (λ a, a < T - W) expired)
  ∧ Forall (λ a, a <= T) adm
  ∧ ∀ t, (Z.of_nat (count (in_window (t - W) t) adm) ≤ m)%Z.

(** The last clock reading of a run, [T] when there is none. *)
Fixpoint last_reading (T : Q) (ts : list Q) : Q :=
  match ts with
  | [] => T
  | t :: rest => last_reading t rest
  end.

(** The limiter has capacity [c] and rate [r], and the bucket of [k] holds
    [x] tokens and was last refilled at [t]. *)
Definition holds (c r : Q) (self : TB.t) (k : string) (x t : Q)
  : Prop :=
  TB.capacity self = c
  ∧ TB.refill_rate self = r
  ∧ ∃ b, TB.buckets self !! k = Some b
         ∧ TB.tokens b == x
         ∧ TB.last_refill b = t.

(** A bucket within [[0, c]] and stamped no later than [T]. *)
Definition in_range (c T : Q) (b : TB.bucket) : Prop :=
  0 <= TB.tokens b
  ∧ TB.tokens b <= c
  ∧ TB.last_refill b <= T.

(** Every stored bucket is within [[0, c]] and stamped no later than [T]. *)
Definition bounded (c r T : Q) (self : TB.t) : Prop :=
  TB.capacity self = c
  ∧ TB.refill_rate self = r
  ∧ ∀ k b, TB.buckets self !! k = Some b → in_range c T b.

(** What a sliding-window call for [k] can see: the configuration and the
    entry of [k]. *)
Definition sliding_window_view (self : SW.t) (k : string)
  : Z * Q * option (list Q) :=
  (SW.max_requests self, SW.time_window self,
   SW.user_requests self !! k).

Definition token_bucket_view (self : TB.t) (k : string)
  : Q * Q * option TB.bucket :=
  (TB.capacity self, TB.refill_rate self,
   TB.buckets self !! k).

Definition is_raised {A} (o : outcome A) : bool :=
  match o with
  | Raised _ => true
  | Returned _ => false
  end.

(** The numeric parameters a limiter was constructed with. *)
Definition parameters (l : limiter) : list Q :=
  match l with
  | SlidingWindowLimiter l => [inject_Z (SW.max_requests l); SW.time_window l]
  | TokenBucketLimiter l => [TB.capacity l; TB.refill_rate l]
  end.

(** ** The factory as the specification words it *)

(** Follows the specification's words, not the code: [create(kind, config)]
    is to fail when [kind] is not recognized or a numeric parameter of
    [config] is not positive. *)
Definition create_fails_as_specified (kind : string) (config : list Q) : bool :=
  negb (String.eqb kind "sliding_window" || String.eqb kind "token_bucket")
  || existsb (λ p, Qle_bool p 0) config.

(** ** Further invariants *)

(** The deque is what is left of the admitted timestamps [adm], which are in
    chronological order and none later than [T], after dropping some that
    are older than [T - W]. *)
Definition follows (W T : Q) (deque adm : list Q) : Prop :=
  (∃ expired, adm = expired ++ deque ∧ Forall (λ a, a < T - W) expired)
  ∧ Forall (λ a, a <= T) adm
  ∧ nondecreasing adm.

(** The user ids that occur in a sequence of calls. *)
Definition called (calls : list call) : gset string := list_to_set (map fst calls).

(** The tokens that a call at time [T] would find after its refill step. *)
Definition available (c r T : Q) (b : TB.bucket) : Q :=
  TB.tokens (TB.refill c r T b).

(** ** The script under [if __name__ == "__main__"]

    The script reads the clock once per call, through [allow_requests]:
    [clock n] is the reading number [n], counted from 0, and [tick] counts
    the readings taken so far.  What the script prints is the list of its
    lines.  [time.sleep(1)] changes nothing but the clock, so it shows only as
    a condition on the readings. *)

Module Main.

Definition user : string := "1".

(** Lines 94-99, [for i in range(105)]: [n] iterations are left, [i] is the
    loop variable.  The loop stops at the first denied request. *)
Fixpoint sliding_window_loop (clock : nat → Q) (n i tick : nat) (sliding_window : limiter)
  : list string * nat :=
  match n with
  | O => ([], tick)
  | S n =>
      let '(ok, sliding_window) := allow_requests sliding_window user (clock tick) in
      if ok
      then sliding_window_loop clock n (S i) (S tick) sliding_window
      else (["Request " +:+ pretty (i + 1)%nat +:+ " denied"], S tick)
  end.

(** Lines 103-105. *)
Fixpoint token_bucket_loop (clock : nat → Q) (n tick : nat) (token_bucket : limiter)
    (allowed_count : nat) : nat * nat * limiter :=
  match n with
  | O => (allowed_count, tick, token_bucket)
  | S n =>
      let '(ok, token_bucket) := allow_requests token_bucket user (clock tick) in
      token_bucket_loop clock n (S tick) token_bucket
        (if ok then (allowed_count + 1)%nat else allowed_count)
  end.

Definition main (clock : nat → Q) : outcome (list string) :=
  match RateLimiterFactory "sliding_window" with
  | Raised e => Raised e
  | Returned sliding_window =>
  match RateLimiterFactory "token_bucket" with
  | Raised e => Raised e
  | Returned token_bucket =>
      let out := ["Sliding Window Test: "] in
      let '(lines, tick) := sliding_window_loop clock 105 0 0 sliding_window in
      let out := out ++ lines ++ ["Token Bucket Test: "] in
      let '(allowed_count, tick, token_bucket) :=
        token_bucket_loop clock 105 tick token_bucket 0 in
      let out := out ++ ["Allowed: " +:+ pretty allowed_count +:+ "/105"] in
      let '(ok, _) := allow_requests token_bucket user (clock tick) in
      Returned (out ++ if ok then ["post wait request allowed"] else [])
  end
  end.

End Main.

(** The calls of one user at the readings [tick], ..., [tick + n - 1]. *)
Definition readings (clock : nat → Q) (user_id : string) (tick n : nat) : list call :=
  map (λ j, (user_id, clock j)) (seq tick n).

(** * Properties *)

(** ** Comparisons *)

Lemma Qltb_true a b : Qltb a b = true ↔ a < b.
Proof. unfold Qltb. destruct (Qlt_le_dec a b); split; intros; try done; lra. Qed.

Lemma Qltb_false a b : Qltb a b = false ↔ b <= a.
Proof. unfold Qltb. destruct (Qlt_le_dec a b); split; intros; try done; lra. Qed.

Lemma Qgeb_true a b : Qgeb a b = true ↔ b <= a.
Proof. unfold Qgeb. apply Qle_bool_iff. Qed.

Lemma Qgeb_false a b : Qgeb a b = false ↔ a < b.
Proof.
  unfold Qgeb. destruct (Qle_bool b a) eqn:E.
  - apply Qle_bool_iff in E. split; intros; [done | lra].
  - split; [intros _ | done]. destruct (Qlt_le_dec a b) as [|Hle]; [done|].
    apply Qle_bool_iff in Hle. congruence.
Qed.

Lemma in_window_true lo hi a : in_window lo hi a = true ↔ lo <= a ∧ a <= hi.
Proof. unfold in_window. rewrite andb_true_iff, !Qle_bool_iff. done. Qed.

Lemma in_window_open_true lo hi a : in_window_open lo hi a = true ↔ lo < a ∧ a <= hi.
Proof. unfold in_window_open. rewrite andb_true_iff, Qltb_true, Qle_bool_iff. done. Qed.

Lemma py_min_le_l a b : py_min a b <= a.
Proof. unfold py_min. destruct (Qltb b a) eqn:E; [apply Qltb_true in E|]; lra. Qed.

Lemma py_min_le_r a b : py_min a b <= b.
Proof. unfold py_min. destruct (Qltb b a) eqn:E; [|apply Qltb_false in E]; lra. Qed.

Lemma py_min_glb a b c : c <= a → c <= b → c <= py_min a b.
Proof. unfold py_min. destruct (Qltb b a); done. Qed.

(** ** Counting *)

Lemma count_app P l1 l2 : count P (l1 ++ l2) = (count P l1 + count P l2)%nat.
Proof. induction l1 as [|a l1 IH]; simpl; [done|]. destruct (P a); lia. Qed.

Lemma count_le_length P l : (count P l ≤ length l)%nat.
Proof. induction l as [|a l IH]; simpl; [lia|]. destruct (P a); lia. Qed.

Lemma count_none P l : Forall (λ a, P a = false) l → count P l = O.
Proof. induction 1 as [|a l Ha _ IH]; simpl; [done|]. by rewrite Ha. Qed.

Lemma count_mono (P1 P2 : Q → bool) l :
  Forall (λ a, P1 a = true → P2 a = true) l → (count P1 l ≤ count P2 l)%nat.
Proof.
  induction 1 as [|a l Ha _ IH]; simpl; [lia|].
  destruct (P1 a); [rewrite Ha by done|destruct (P2 a)]; lia.
Qed.

(** ** Sliding window: one call *)

Module SlidingWindowFacts.
Import SlidingWindowRateLimiter.

(** The trim loop removes a prefix of timestamps below the cutoff and stops
    at the first timestamp that is not below it. *)
Lemma trim_split cutoff requests :
  ∃ expired, requests = expired ++ trim cutoff requests
             ∧ Forall (λ r, r < cutoff) expired
             ∧ (∀ r rest, trim cutoff requests = r :: rest → cutoff <= r).
Proof.
  induction requests as [|r requests (expired & Heq & Hexp & Hhd)]; simpl.
  - exists []. split_and!; [done|constructor|done].
  - destruct (Qltb r cutoff) eqn:E.
    + exists (r :: expired). split_and!; [by rewrite <- app_comm_cons, <- Heq| |done].
      constructor; [by apply Qltb_true|done].
    + exists []. split_and!; [done|constructor|].
      intros r' rest [= <- _]. by apply Qltb_false.
Qed.

Lemma trim_length cutoff requests : (length (trim cutoff requests) ≤ length requests)%nat.
Proof.
  destruct (trim_split cutoff requests) as (expired & Heq & _).
  rewrite Heq at 2. rewrite length_app. lia.
Qed.

Lemma trim_same_length cutoff requests :
  length (trim cutoff requests) = length requests → trim cutoff requests = requests.
Proof.
  destruct (trim_split cutoff requests) as (expired & Heq & _). intros Hlen.
  rewrite Heq in Hlen at 2. rewrite length_app in Hlen.
  destruct expired; [done | simpl in Hlen; lia].
Qed.

Lemma deque_of_ensure self k k' : deque_of (ensure self k) k' = deque_of self k'.
Proof.
  unfold ensure, deque_of. destruct (user_requests self !! k) eqn:E; [done|]. simpl.
  destruct (decide (k = k')) as [<-|Hne].
  - by rewrite lookup_insert_eq, E.
  - by rewrite lookup_insert_ne.
Qed.

Lemma deque_of_set_eq self k l : deque_of (set_deque self k l) k = l.
Proof. unfold deque_of. simpl. by rewrite lookup_insert_eq. Qed.

Lemma deque_of_set_ne self k k' l :
  k ≠ k' → deque_of (set_deque self k l) k' = deque_of self k'.
Proof. intros. unfold deque_of. simpl. by rewrite lookup_insert_ne. Qed.

Lemma max_requests_ensure self k : max_requests (ensure self k) = max_requests self.
Proof. unfold ensure. by destruct (user_requests self !! k). Qed.

Lemma time_window_ensure self k : time_window (ensure self k) = time_window self.
Proof. unfold ensure. by destruct (user_requests self !! k). Qed.

(** What one call does, read through [deque_of]. *)
Lemma sw_allow_spec self k now :
  let requests := trim (now - time_window self) (deque_of self k) in
  let ok := (Z.of_nat (length requests) <? max_requests self)%Z in
  let '(ok', self') := allow_requests self k now in
  ok' = ok
  ∧ max_requests self' = max_requests self
  ∧ time_window self' = time_window self
  ∧ deque_of self' k = (if ok then requests ++ [now] else requests)
  ∧ (∀ k', k ≠ k' → user_requests self' !! k' = user_requests self !! k').
Proof.
  unfold allow_requests. simpl.
  rewrite max_requests_ensure, time_window_ensure, deque_of_ensure.
  set (requests := trim _ _).
  assert (∀ k', k ≠ k' → user_requests (ensure self k) !! k' = user_requests self !! k')
    as Hother.
  { intros k' Hne. unfold ensure. destruct (user_requests self !! k); [done|].
    simpl. by rewrite lookup_insert_ne. }
  destruct (Z.of_nat (length requests) <? max_requests self)%Z; simpl;
    rewrite ?deque_of_set_eq; split_and!;
    auto using max_requests_ensure, time_window_ensure;
    intros k' Hne; rewrite ?lookup_insert_ne by done; by apply Hother.
Qed.

(** After a call the key has an entry. *)
Lemma allow_lookup self k now :
  user_requests (snd (allow_requests self k now)) !! k
  = Some (deque_of (snd (allow_requests self k now)) k).
Proof.
  unfold allow_requests. cbv zeta. destruct (Z.ltb _ _); unfold deque_of; simpl;
    by rewrite !lookup_insert_eq.
Qed.

End SlidingWindowFacts.

(** ** Runs *)

(** The contract's method at each class is the method of that class. *)
Lemma sliding_window_call (self : SW.t) k now :
  allow_requests self k now = SW.allow_requests self k now.
Proof. reflexivity. Qed.

Lemma token_bucket_call (self : TB.t) k now :
  allow_requests self k now = TB.allow_requests self k now.
Proof. reflexivity. Qed.

Lemma run_cons {L} `{RateLimiter L} (self : L) k now rest :
  run self ((k, now) :: rest)
  = (fst (allow_requests self k now) :: fst (run (snd (allow_requests self k now)) rest),
     snd (run (snd (allow_requests self k now)) rest)).
Proof.
  simpl. destruct (allow_requests self k now) as [ok self1]. simpl.
  by destruct (run self1 rest).
Qed.

Lemma run_step {L} `{RateLimiter L} (self : L) k now rest ok self1 :
  allow_requests self k now = (ok, self1) →
  run self ((k, now) :: rest) = (ok :: fst (run self1 rest), snd (run self1 rest)).
Proof. intros E. rewrite run_cons. by rewrite E. Qed.

(** A property kept by every call holds after every run. *)
Lemma run_invariant {L} `{RateLimiter L} (P : L → Prop) :
  (∀ self k now, P self → P (snd (allow_requests self k now))) →
  ∀ calls self, P self → P (snd (run self calls)).
Proof.
  intros Hstep calls. induction calls as [|[k now] rest IH]; intros self HP; [done|].
  rewrite run_cons. simpl. by apply IH, Hstep.
Qed.

Lemma clock_from_weaken T T' ts : T' <= T → clock_from T ts → clock_from T' ts.
Proof. destruct ts; simpl; [done|]. intros ? [? ?]. split; [lra|done]. Qed.

Lemma clock_from_Forall T ts : clock_from T ts → Forall (Qle T) ts.
Proof.
  revert T. induction ts as [|t ts IH]; intros T; simpl; [constructor|].
  intros [Hle Hts]. constructor; [done|].
  apply IH. by apply clock_from_weaken with t.
Qed.

Module SlidingWindowRuns.
Import SlidingWindowRateLimiter SlidingWindowFacts.


Lemma within_limit_init m W : within_limit (init m W).
Proof. intros k. unfold deque_of. simpl. rewrite lookup_empty. simpl. lia. Qed.

Lemma within_limit_allow self k now :
  within_limit self → within_limit (snd (allow_requests self k now)).
Proof.
  intros Hinv k'. pose proof (sw_allow_spec self k now) as Hspec. simpl in Hspec.
  destruct (allow_requests self k now) as [ok self']. simpl.
  destruct Hspec as (_ & -> & _ & Hk & Hother).
  destruct (decide (k = k')) as [<-|Hne].
  - rewrite Hk. pose proof (trim_length (now - time_window self) (deque_of self k)).
    specialize (Hinv k).
    destruct (Z.of_nat _ <? max_requests self)%Z eqn:E.
    + apply Z.ltb_lt in E. rewrite length_app. simpl. lia.
    + lia.
  - unfold deque_of. rewrite Hother by done. apply Hinv.
Qed.

Lemma within_limit_run m W calls : within_limit (snd (run (init m W) calls)).
Proof.
  apply (run_invariant within_limit); [|apply within_limit_init].
  intros self k now. apply within_limit_allow.
Qed.

Lemma set_deque_id self k l : user_requests self !! k = Some l → set_deque self k l = self.
Proof. intros Hk. unfold set_deque. rewrite insert_id by done. by destruct self. Qed.

End SlidingWindowRuns.

(** ** Sliding window: the claims about one call *)

Section SlidingWindowCalls.
Import SlidingWindowRateLimiter SlidingWindowFacts SlidingWindowRuns.




(** C6.  In every state reached from a new limiter, a denied call leaves the
    timestamp sequence of every key as it was.  The limiter itself is
    unchanged, except that a key never seen before has received its empty
    deque, which can only be denied when [max_requests <= 0]. *)
Theorem denied_call_changes_nothing (m : Z) (W : Q) (calls : list call) (k : string) (now : Q) :
  let self := snd (run (init m W) calls) in
  fst (allow_requests self k now) = false →
  (∀ k', deque_of (snd (allow_requests self k now)) k' = deque_of self k')
  ∧ (snd (allow_requests self k now) = self
     ∨ (m ≤ 0)%Z ∧ user_requests self !! k = None
       ∧ snd (allow_requests self k now) = set_deque self k [])
  ∧ ((1 ≤ m)%Z → snd (allow_requests self k now) = self).
Proof.
  intros self Hdenied.
  assert (max_requests self = m) as Hm.
  { unfold self. apply (run_invariant (λ s, max_requests s = m)); [|done].
    intros s k0 now0 <-. rewrite sliding_window_call.
    pose proof (sw_allow_spec s k0 now0) as Hspec. simpl in Hspec.
    destruct (allow_requests s k0 now0). simpl. by destruct Hspec as (_ & -> & _). }
  pose proof (within_limit_run m W calls k) as Hlim. fold self in Hlim.
  rewrite Hm in Hlim.
  assert (trim (now - time_window self) (deque_of self k) = deque_of self k
          ∧ (Z.of_nat (length (deque_of self k)) <? m)%Z = false) as [Htrim Hfull].
  { pose proof (sw_allow_spec self k now) as Hspec. simpl in Hspec.
    destruct (allow_requests self k now) as [ok self']. simpl in Hdenied. subst ok.
    destruct Hspec as (Hok & _). symmetry in Hok. rewrite Hm in Hok.
    pose proof (trim_length (now - time_window self) (deque_of self k)) as Hlen.
    apply Z.ltb_ge in Hok.
    assert (length (trim (now - time_window self) (deque_of self k))
            = length (deque_of self k)) as Hsame by lia.
    split; [by apply trim_same_length|]. apply Z.ltb_ge. lia. }
  assert (snd (allow_requests self k now) = self
          ∨ (m ≤ 0)%Z ∧ user_requests self !! k = None
            ∧ snd (allow_requests self k now) = set_deque self k []) as Hcases.
  { unfold allow_requests. cbv zeta. simpl max_requests. simpl time_window.
    rewrite max_requests_ensure, time_window_ensure, deque_of_ensure.
    rewrite Htrim, Hm, Hfull. simpl.
    unfold ensure, deque_of in *. destruct (user_requests self !! k) as [l|] eqn:Hk; simpl in *.
    - left. by apply set_deque_id.
    - right. apply Z.ltb_ge in Hfull. split_and!; [lia|done|].
      unfold set_deque. simpl. by rewrite insert_insert_eq. }
  split_and!; [|done|].
  - intros k'. destruct Hcases as [->|(_ & Hk & ->)]; [done|].
    destruct (decide (k = k')) as [<-|Hne].
    + rewrite deque_of_set_eq. unfold deque_of. by rewrite Hk.
    + by rewrite deque_of_set_ne.
  - intros Hpos. destruct Hcases as [?|(? & _)]; [done|lia].
Qed.

Lemma denied_call_changes_nothing_witness :
  let self := snd (run (init 1 10) [("u"%string, 0)]) in
  snd (allow_requests self "u" 1) = self.
Proof.
  intros self.
  apply (denied_call_changes_nothing 1 10 [("u"%string, 0)] "u" 1); [reflexivity|lia].
Defined.

End SlidingWindowCalls.

(** ** Sliding window: boundedness over runs *)

Section SlidingWindowBound.
Import SlidingWindowRateLimiter SlidingWindowFacts SlidingWindowRuns.

Variables (m : Z) (W : Q) (k : string).
Hypothesis m_nonneg : (0 ≤ m)%Z.

Local Abbreviation tracked := (tracks m W).


Lemma tracks_later T T' deque adm : T <= T' → tracked T deque adm → tracked T' deque adm.
Proof.
  intros HT ((expired & Heq & Hexp) & Hle & Hcount). split_and!; [|..|done].
  - exists expired. split; [done|]. eapply Forall_impl; [exact Hexp|]. simpl. intros; lra.
  - eapply Forall_impl; [exact Hle|]. simpl. intros; lra.
Qed.

Lemma tracks_trim T now deque adm :
  T <= now → tracked T deque adm → tracked now (trim (now - W) deque) adm.
Proof.
  intros HT Htr. apply (tracks_later _ now) in Htr; [|done].
  destruct Htr as ((expired & Heq & Hexp) & Hle & Hcount). split_and!; [|done..].
  destruct (trim_split (now - W) deque) as (expired' & Heq' & Hexp' & _).
  exists (expired ++ expired'). split.
  - by rewrite <- app_assoc, <- Heq'.
  - by apply Forall_app.
Qed.

Lemma tracks_admit now deque adm :
  tracked now deque adm → (Z.of_nat (length deque) < m)%Z →
  tracked now (deque ++ [now]) (adm ++ [now]).
Proof.
  intros ((expired & Heq & Hexp) & Hle & Hcount) Hroom. split_and!.
  - exists expired. split; [by rewrite Heq, app_assoc|done].
  - apply Forall_app. split; [done|]. constructor; [lra|constructor].
  - intros t. rewrite count_app. simpl.
    destruct (in_window (t - W) t now) eqn:Hin; [|specialize (Hcount t); lia].
    apply in_window_true in Hin as [Hlo Hhi].
    assert (count (in_window (t - W) t) adm ≤ length deque)%nat; [|lia].
    etrans; [apply (count_mono _ (Qle_bool (now - W)))|].
    { eapply Forall_impl; [exact Hle|]. simpl. intros a Ha Hwin.
      apply in_window_true in Hwin. apply Qle_bool_iff. lra. }
    rewrite Heq, count_app, count_none; [apply count_le_length|].
    eapply Forall_impl; [exact Hexp|]. simpl. intros a Ha.
    destruct (Qle_bool (now - W) a) eqn:E; [|done]. apply Qle_bool_iff in E. lra.
Qed.

Lemma tracks_run calls : ∀ self T adm,
  max_requests self = m → time_window self = W →
  tracked T (deque_of self k) adm → clock_from T (map snd calls) →
  ∃ T', tracked T' (deque_of (snd (run self calls)) k)
          (adm ++ admitted k calls (fst (run self calls))).
Proof.
  induction calls as [|[u now] rest IH]; intros self T adm Hm HW Htr Hclock.
  - exists T. simpl. by rewrite app_nil_r.
  - rewrite run_cons. simpl in Hclock. destruct Hclock as [HT Hclock].
    rewrite sliding_window_call.
    pose proof (sw_allow_spec self u now) as Hspec. simpl in Hspec.
    destruct (allow_requests self u now) as [ok self1].
    destruct Hspec as (Hok & Hm1 & HW1 & Hu & Hother). simpl.
    rewrite Hm, HW in *.
    destruct (decide (u = k)) as [->|Hne].
    + rewrite bool_decide_eq_true_2 by done.
      apply (tracks_trim T now) in Htr; [|done].
      destruct ok; simpl.
      * rewrite <- Hok in Hu. symmetry in Hok. apply Z.ltb_lt in Hok.
        apply tracks_admit in Htr; [|done]. rewrite <- Hu in Htr.
        destruct (IH self1 now (adm ++ [now])) as [T' HT']; try done.
        exists T'. by rewrite <- app_assoc in HT'.
      * rewrite <- Hok in Hu. rewrite <- Hu in Htr. by apply (IH self1 now).
    + rewrite bool_decide_eq_false_2, andb_false_r by done.
      apply (IH self1 now); try done.
      unfold deque_of. rewrite Hother by done. by apply (tracks_later T).
Qed.

Lemma tracks_init T : tracked T (deque_of (init m W) k) [].
Proof.
  unfold deque_of. simpl. rewrite lookup_empty. simpl. split_and!.
  - exists []. split; [done|constructor].
  - constructor.
  - intros t. simpl. lia.
Qed.

Lemma window_bound calls t :
  nondecreasing (map snd calls) →
  (Z.of_nat (count (in_window (t - W) t)
               (admitted k calls (fst (run (init m W) calls)))) ≤ m)%Z.
Proof.
  intros Hclock. destruct calls as [|[u now] rest]; [simpl; lia|].
  destruct (tracks_run ((u, now) :: rest) (init m W) now []) as [T' (_ & _ & Hcount)];
    [done|done|apply tracks_init|simpl; split; [lra|done]|].
  apply Hcount.
Qed.

End SlidingWindowBound.

Section SlidingWindowBoundedness.
Import SlidingWindowRateLimiter SlidingWindowFacts SlidingWindowRuns.

(** C1.  Take a new sliding-window limiter with [0 <= max_requests] and any
    sequence of calls whose clock readings never go backwards.  For every key
    and every instant [t], the calls admitted for that key with a timestamp
    in the window [[t - time_window, t]] (hence also in the half-open window
    [(t - time_window, t]]) number at most [max_requests]; and when a further
    call is admitted, the deque of its key then holds at most [max_requests]
    timestamps. *)
Theorem sliding_window_bounded (m : Z) (W : Q) (calls : list call) :
  (0 ≤ m)%Z → nondecreasing (map snd calls) →
  let oks := fst (run (init m W) calls) in
  let self := snd (run (init m W) calls) in
  (∀ k t, (Z.of_nat (count (in_window (t - W) t) (admitted k calls oks)) ≤ m)%Z)
  ∧ (∀ k t, (Z.of_nat (count (in_window_open (t - W) t) (admitted k calls oks)) ≤ m)%Z)
  ∧ (∀ k now, fst (allow_requests self k now) = true →
       (Z.of_nat (length (deque_of (snd (allow_requests self k now)) k)) ≤ m)%Z).
Proof.
  intros Hm Hclock oks self.
  assert (∀ k t, (Z.of_nat (count (in_window (t - W) t) (admitted k calls oks)) ≤ m)%Z)
    as Hclosed by (intros k t; by apply window_bound).
  split_and!; [done| |].
  - intros k t. specialize (Hclosed k t).
    assert (count (in_window_open (t - W) t) (admitted k calls oks)
            ≤ count (in_window (t - W) t) (admitted k calls oks))%nat; [|lia].
    apply count_mono, Forall_forall. intros a _ Ha.
    apply in_window_open_true in Ha. apply in_window_true. lra.
  - intros k now Hok.
    pose proof (within_limit_allow self k now (within_limit_run m W calls) k) as Hlim.
    assert (max_requests (snd (allow_requests self k now)) = m) as Hm'.
    { pose proof (sw_allow_spec self k now) as Hspec. simpl in Hspec.
      destruct (allow_requests self k now) as [ok self']. simpl.
      destruct Hspec as (_ & -> & _).
      unfold self. apply (run_invariant (λ s, max_requests s = m)); [|done].
      intros s k0 now0 <-. rewrite sliding_window_call.
      pose proof (sw_allow_spec s k0 now0) as Hspec. simpl in Hspec.
      destruct (allow_requests s k0 now0). simpl. by destruct Hspec as (_ & -> & _). }
    rewrite Hm' in Hlim. lia.
Qed.

Lemma sliding_window_bounded_witness :
  let calls := [("u"%string, 0); ("u"%string, 1); ("v"%string, 1); ("u"%string, 2 # 1)] in
  (Z.of_nat (count (in_window (2 - 10) 2)
               (admitted "u" calls (fst (run (init 2 10) calls)))) ≤ 2)%Z.
Proof.
  intros calls.
  apply (sliding_window_bounded 2 10 calls); [lia|].
  vm_compute. split_and!; (intros [=] || exact I).
Defined.

End SlidingWindowBoundedness.

(** ** Token bucket: one call *)

Module TokenBucketFacts.
Import TokenBucketRateLimiter.

Lemma py_min_Qmin a b : py_min a b == Qmin a b.
Proof.
  unfold py_min. destruct (Qltb b a) eqn:E.
  - apply Qltb_true in E. rewrite Q.min_r; lra.
  - apply Qltb_false in E. rewrite Q.min_l; lra.
Qed.

Lemma bucket_of_ensure self k now :
  buckets (ensure self k now) !! k = Some (bucket_of self k now)
  ∧ bucket_of (ensure self k now) k now = bucket_of self k now
  ∧ capacity (ensure self k now) = capacity self
  ∧ refill_rate (ensure self k now) = refill_rate self
  ∧ ∀ k', k ≠ k' → buckets (ensure self k now) !! k' = buckets self !! k'.
Proof.
  unfold ensure, bucket_of. destruct (buckets self !! k) as [b|] eqn:E; simpl.
  - rewrite E. done.
  - rewrite lookup_insert_eq. split_and!; try done.
    intros k' Hne. by rewrite lookup_insert_ne.
Qed.

(** What one call does: the bucket of the key is refilled, then debited. *)
Lemma tb_allow_spec self k now :
  let b := refill (capacity self) (refill_rate self) now (bucket_of self k now) in
  let '(ok', self') := allow_requests self k now in
  ok' = fst (consume b)
  ∧ capacity self' = capacity self
  ∧ refill_rate self' = refill_rate self
  ∧ buckets self' !! k = Some (snd (consume b))
  ∧ (∀ k', k ≠ k' → buckets self' !! k' = buckets self !! k').
Proof.
  unfold allow_requests. cbv zeta.
  destruct (bucket_of_ensure self k now) as (_ & Hb & Hc & Hr & Hother).
  simpl capacity. simpl refill_rate. rewrite Hb, Hc, Hr.
  destruct (consume _) as [ok b']. simpl. rewrite lookup_insert_eq.
  split_and!; try done.
  intros k' Hne. rewrite !lookup_insert_ne by done. by apply Hother.
Qed.

End TokenBucketFacts.

Section TokenBucketCalls.
Import TokenBucketRateLimiter TokenBucketFacts.



End TokenBucketCalls.

(** ** First call for a new key *)

Section FirstCall.



End FirstCall.

(** ** Token bucket: following a key through a run *)

Module TokenBucketRuns.
Import TokenBucketRateLimiter TokenBucketFacts.

Lemma py_min_below c y : y <= c → py_min c y == y.
Proof.
  intros Hy. unfold py_min. destruct (Qltb y c) eqn:E; [done|].
  apply Qltb_false in E. lra.
Qed.

Lemma holds_fresh c r self k now :
  capacity self = c → refill_rate self = r → buckets self !! k = None → 1 <= c →
  fst (allow_requests self k now) = true
  ∧ holds c r (snd (allow_requests self k now)) k (c - 1) now.
Proof.
  intros Hc Hr Hk Hone. pose proof (tb_allow_spec self k now) as Hspec. simpl in Hspec.
  destruct (allow_requests self k now) as [ok self']. simpl.
  destruct Hspec as (-> & Hc' & Hr' & Hb & _).
  unfold bucket_of in *. rewrite Hk in *. simpl in *. rewrite Hc, Hr in *.
  assert (py_min c (c + (now - now) * r) == c) as Hmin
    by (rewrite py_min_below; nra).
  unfold consume in *. simpl in *.
  assert (Qgeb (py_min c (c + (now - now) * r)) 1 = true) as Hge
    by (apply Qgeb_true; lra).
  rewrite Hge in *. simpl in *. split; [done|].
  split_and!; [done..|]. eexists. split; [exact Hb|]. simpl. split; [lra|done].
Qed.

Lemma holds_step c r self k x t now y :
  holds c r self k x t → y == x + (now - t) * r → y <= c →
  fst (allow_requests self k now) = Qgeb y 1
  ∧ holds c r (snd (allow_requests self k now)) k (if Qgeb y 1 then y - 1 else y) now.
Proof.
  intros (Hc & Hr & b & Hk & Hx & Ht) Hy Hle.
  pose proof (tb_allow_spec self k now) as Hspec. simpl in Hspec.
  destruct (allow_requests self k now) as [ok self']. simpl.
  destruct Hspec as (-> & Hc' & Hr' & Hb & _).
  unfold bucket_of in *. rewrite Hk in *. simpl in *. subst c r t.
  unfold consume, refill in *. simpl in *.
  set (z := py_min _ _) in *.
  assert (z == y) as Hz by (unfold z; rewrite py_min_below; lra).
  assert (Qgeb z 1 = Qgeb y 1) as Hge.
  { destruct (Qgeb y 1) eqn:E.
    - apply Qgeb_true in E. apply Qgeb_true. lra.
    - apply Qgeb_false in E. apply Qgeb_false. lra. }
  rewrite Hge in *. split; [by destruct (Qgeb y 1)|].
  split_and!; [done..|]. eexists. split; [exact Hb|].
  destruct (Qgeb y 1); simpl; (split; [lra|done]).
Qed.

Lemma run_fresh c r self k now rest :
  capacity self = c → refill_rate self = r → buckets self !! k = None → 1 <= c →
  ∃ self', holds c r self' k (c - 1) now
           ∧ run self ((k, now) :: rest) = (true :: fst (run self' rest), snd (run self' rest)).
Proof.
  intros Hc Hr Hk Hone. destruct (holds_fresh c r self k now) as [Hok Hholds]; [done..|].
  exists (snd (allow_requests self k now)). split; [done|].
  apply run_step. rewrite <- Hok. apply surjective_pairing.
Qed.

Lemma run_holds c r self k x t now y rest :
  holds c r self k x t → y == x + (now - t) * r → y <= c →
  ∃ self', holds c r self' k (if Qgeb y 1 then y - 1 else y) now
           ∧ run self ((k, now) :: rest)
             = (Qgeb y 1 :: fst (run self' rest), snd (run self' rest)).
Proof.
  intros Hholds Hy Hle.
  destruct (holds_step c r self k x t now y) as [Hok Hholds']; [done..|].
  exists (snd (allow_requests self k now)). split; [done|].
  apply run_step. rewrite <- Hok. apply surjective_pairing.
Qed.

End TokenBucketRuns.

Section TokenBucketScenario.
Import TokenBucketRateLimiter TokenBucketFacts TokenBucketRuns.

(** C8.  With capacity 5 and refill rate 1, for a key without a bucket: five
    calls at one instant [t] are admitted, a sixth call at [t] is denied, and
    a call at [t + 2] is admitted and leaves exactly one token. *)
Theorem token_bucket_scenario (self : t) (k : string) (t : Q) :
  capacity self = 5 → refill_rate self = 1 → buckets self !! k = None →
  let calls := [(k, t); (k, t); (k, t); (k, t); (k, t); (k, t); (k, t + 2)] in
  fst (run self calls) = [true; true; true; true; true; false; true]
  ∧ ∃ b, buckets (snd (run self calls)) !! k = Some b
         ∧ tokens b == 1 ∧ last_refill b = t + 2.
Proof.
  intros Hc Hr Hk calls. unfold calls.
  destruct (run_fresh 5 1 self k t [(k, t); (k, t); (k, t); (k, t); (k, t); (k, t + 2)])
    as (s1 & H1 & ->); [done..|lra|].
  destruct (run_holds 5 1 s1 k _ _ t 4 [(k, t); (k, t); (k, t); (k, t); (k, t + 2)] H1)
    as (s2 & H2 & ->); [lra..|].
  destruct (run_holds 5 1 s2 k _ _ t 3 [(k, t); (k, t); (k, t); (k, t + 2)] H2)
    as (s3 & H3 & ->); [simpl; lra|lra|].
  destruct (run_holds 5 1 s3 k _ _ t 2 [(k, t); (k, t); (k, t + 2)] H3)
    as (s4 & H4 & ->); [simpl; lra|lra|].
  destruct (run_holds 5 1 s4 k _ _ t 1 [(k, t); (k, t + 2)] H4)
    as (s5 & H5 & ->); [simpl; lra|lra|].
  destruct (run_holds 5 1 s5 k _ _ t 0 [(k, t + 2)] H5)
    as (s6 & H6 & ->); [simpl; lra|lra|].
  destruct (run_holds 5 1 s6 k _ _ (t + 2) 2 [] H6)
    as (s7 & H7 & ->); [simpl; lra|lra|].
  split; [reflexivity|].
  destruct H7 as (_ & _ & b & Hb & Htok & Hlast). exists b.
  split_and!; [exact Hb| |exact Hlast].
  change (tokens b == 2 - 1) in Htok. lra.
Qed.

Lemma token_bucket_scenario_witness :
  fst (run (init 5 1)
         [("u"%string, 100); ("u"%string, 100); ("u"%string, 100); ("u"%string, 100);
          ("u"%string, 100); ("u"%string, 100); ("u"%string, 100 + 2)])
  = [true; true; true; true; true; false; true].
Proof.
  apply (token_bucket_scenario (init 5 1) "u" 100); reflexivity.
Defined.

End TokenBucketScenario.

(** ** Token bucket: clock readings that go backwards *)

Section TokenBucketClock.
Import TokenBucketRateLimiter TokenBucketFacts TokenBucketRuns.

Lemma refill_order c r now b :
  tokens b <= c → 0 < r →
  let b' := refill c r now b in
  (tokens b <= tokens b' ↔ last_refill b <= now)
  ∧ (now < last_refill b ↔
     tokens b' < tokens b ∧ tokens b' == tokens b + (now - last_refill b) * r).
Proof.
  intros Hcap Hrate. unfold refill. cbn [tokens].
  set (e := now - last_refill b).
  pose proof (py_min_le_r c (tokens b + e * r)) as Hle.
  split; split.
  - intros Hno. destruct (Qlt_le_dec now (last_refill b)) as [Hback|]; [|done].
    unfold e in *. nra.
  - intros Hfwd. apply py_min_glb; [done|]. unfold e. nra.
  - intros Hback. assert (e * r < 0) as Hneg by (unfold e; nra).
    rewrite py_min_below by lra. split; [lra|reflexivity].
  - intros [Hlow _]. destruct (Qlt_le_dec now (last_refill b)) as [|Hfwd]; [done|].
    assert (tokens b <= py_min c (tokens b + e * r)); [|lra].
    apply py_min_glb; [done|]. unfold e. nra.
Qed.




End TokenBucketClock.

(** ** Token bucket: boundedness over runs *)


Lemma clock_from_snoc T ts now :
  clock_from T (ts ++ [now]) → clock_from T ts ∧ last_reading T ts <= now.
Proof.
  revert T. induction ts as [|t ts IH]; intros T; simpl.
  - intros [? _]. done.
  - intros [? Hts]. destruct (IH t Hts). done.
Qed.

Lemma nondecreasing_snoc ts now :
  nondecreasing (ts ++ [now]) → ∃ T, clock_from T ts ∧ last_reading T ts <= now.
Proof.
  destruct ts as [|t ts]; simpl.
  - intros _. exists now. split; [done|lra].
  - intros Hts. exists t. apply clock_from_snoc in Hts as [? ?].
    split; [split; [lra|done]|done].
Qed.

Section TokenBucketBound.
Import TokenBucketRateLimiter TokenBucketFacts TokenBucketRuns.

Variables c r : Q.
Hypothesis c_nonneg : 0 <= c.
Hypothesis r_nonneg : 0 <= r.

Local Abbreviation ranged := (in_range c).
Local Abbreviation bound := (bounded c r).


Lemma in_range_later T T' b : T <= T' → ranged T b → ranged T' b.
Proof. intros ? (? & ? & ?). split_and!; [done..|lra]. Qed.

Lemma in_range_refill T now b : T <= now → ranged T b → ranged now (refill c r now b).
Proof.
  intros HT (Hlo & Hhi & Hlast). unfold refill, in_range. cbn [tokens last_refill].
  split_and!; [|apply py_min_le_l|lra].
  apply py_min_glb; [done|]. nra.
Qed.

Lemma in_range_consume T b : ranged T b → ranged T (snd (consume b)).
Proof.
  intros (Hlo & Hhi & Hlast). unfold consume.
  destruct (Qgeb (tokens b) 1) eqn:E; [|done].
  apply Qgeb_true in E. unfold in_range. simpl. split_and!; [lra..|done].
Qed.

Lemma in_range_bucket_of T self k now :
  bound T self → T <= now → ranged now (bucket_of self k now).
Proof.
  intros (Hc & _ & Hall) HT. unfold bucket_of.
  destruct (buckets self !! k) as [b|] eqn:E; simpl.
  - apply (in_range_later T); [done|]. by apply (Hall k).
  - rewrite Hc. unfold in_range. simpl. split_and!; lra.
Qed.

Lemma bounded_allow T self k now :
  bound T self → T <= now → bound now (snd (allow_requests self k now)).
Proof.
  intros Hb HT. pose proof (in_range_bucket_of T self k now Hb HT) as Hk.
  destruct Hb as (Hc & Hr & Hall).
  pose proof (tb_allow_spec self k now) as Hspec. simpl in Hspec.
  destruct (allow_requests self k now) as [ok self']. cbn [snd].
  destruct Hspec as (_ & Hc' & Hr' & Hbk & Hother).
  split_and!; [congruence..|]. intros k' b' Hb'.
  destruct (decide (k = k')) as [<-|Hne].
  - rewrite Hbk in Hb'. injection Hb' as <-. rewrite Hc, Hr.
    apply in_range_consume, (in_range_refill now); [lra|done].
  - rewrite Hother in Hb' by done. apply (in_range_later T); [done|]. by apply (Hall k').
Qed.

Lemma bounded_run calls : ∀ T self,
  bound T self → clock_from T (map snd calls) →
  bound (last_reading T (map snd calls)) (snd (run self calls)).
Proof.
  induction calls as [|[k now] rest IH]; intros T self Hb Hclock; [done|].
  rewrite run_cons. simpl in *. destruct Hclock as [HT Hclock].
  apply IH; [|done]. by apply (bounded_allow T).
Qed.

Lemma bounded_init T : bound T (init c r).
Proof. split_and!; [done..|]. intros k b. simpl. by rewrite lookup_empty. Qed.

End TokenBucketBound.

Section TokenBucketBoundedness.
Import TokenBucketRateLimiter TokenBucketFacts TokenBucketRuns.

(** C2 (as the code has it).  Take a new token-bucket limiter with
    [0 <= capacity] and [0 <= refill_rate], and any sequence of calls whose
    clock readings never go backwards.  Every stored bucket then satisfies
    [0 <= tokens <= capacity].  For a further call whose clock reading is not
    earlier than the previous ones, the count stored by the refill step, before
    the debit, is within the same bounds, and [last_refill] of no key
    decreases. *)
Theorem token_bucket_bounded (c r : Q) (calls : list call) :
  0 <= c → 0 <= r → nondecreasing (map snd calls) →
  let self := snd (run (init c r) calls) in
  (∀ k b, buckets self !! k = Some b → 0 <= tokens b <= c)
  ∧ (∀ k now, nondecreasing (map snd (calls ++ [(k, now)])) →
       0 <= tokens (refill c r now (bucket_of self k now)) <= c
       ∧ ∀ k' b, buckets self !! k' = Some b →
           ∃ b', buckets (snd (allow_requests self k now)) !! k' = Some b'
                 ∧ last_refill b <= last_refill b').
Proof.
  intros Hc Hr Hclock self. split.
  - intros k b Hb.
    assert (∃ T, bounded c r T self) as [T (_ & _ & Hall)].
    { destruct calls as [|[u t0] rest]; [exists 0; apply bounded_init|].
      eexists. apply (bounded_run c r Hc Hr _ t0); [apply bounded_init|].
      simpl. split; [lra|done]. }
    destruct (Hall k b Hb) as (? & ? & _). done.
  - intros k now Hnext. rewrite map_app in Hnext. simpl in Hnext.
    apply nondecreasing_snoc in Hnext as (T & HT & Hlast).
    pose proof (bounded_run c r Hc Hr calls T (init c r) (bounded_init c r T) HT) as Hb.
    fold self in Hb. set (T' := last_reading T (map snd calls)) in *.
    split.
    + pose proof (in_range_bucket_of c r Hc T' self k now Hb Hlast) as Hk.
      apply (in_range_refill c r Hc Hr now now) in Hk as (? & ? & _); [done|lra].
    + intros k' b Hk'. destruct Hb as (Hcap & Hrate & Hall).
      destruct (Hall k' b Hk') as (_ & _ & Hb_last).
      pose proof (tb_allow_spec self k now) as Hspec. simpl in Hspec.
      destruct (allow_requests self k now) as [ok self']. cbn [snd].
      destruct Hspec as (_ & _ & _ & Hbk & Hother).
      destruct (decide (k = k')) as [<-|Hne].
      * eexists. split; [exact Hbk|]. unfold consume, refill.
        destruct (Qgeb _ 1); simpl; exact (Qle_trans _ _ _ Hb_last Hlast).
      * exists b. rewrite Hother by done. split; [done|lra].
Qed.

Lemma token_bucket_bounded_witness :
  let calls := [("u"%string, 0); ("v"%string, 1); ("u"%string, 1)] in
  buckets (snd (run (init 2 (1 # 2)) calls)) !! "u" = Some (mk_bucket (1 # 2) 1)
  ∧ 0 <= 1 # 2 <= 2.
Proof.
  intros calls. split; [reflexivity|].
  destruct (token_bucket_bounded 2 (1 # 2) calls) as [H _]; [lra|lra| |].
  - vm_compute. split_and!; (intros [=] || exact I).
  - apply (H "u"%string (mk_bucket (1 # 2) 1)). reflexivity.
Defined.

(** C2 (as the specification words it, for any clock readings) fails: after a
    call at time 10 and a call at time 2, the bucket holds [-4] tokens and
    its [last_refill] has gone back from 10 to 2. *)
Lemma backwards_clock_breaks_bounds :
  let before := snd (run (init 5 1) [("u"%string, 10)]) in
  let after := snd (run (init 5 1) [("u"%string, 10); ("u"%string, 2)]) in
  buckets before !! "u" = Some (mk_bucket 4 10)
  ∧ buckets after !! "u" = Some (mk_bucket (-4) 2)
  ∧ ¬ (0 <= -4)
  ∧ ¬ (10 <= 2).
Proof. vm_compute. split_and!; try reflexivity; intros H; by apply H. Qed.

End TokenBucketBoundedness.

(** ** Per-key isolation *)

Section Isolation.
Context {L S : Type} {ops : RateLimiter L}.

(** [key_state self k]: everything a call for [k] may read or write. *)
Variable key_state : L → string → S.

(** A call for [k] depends on the limiter through [key_state _ k] only. *)
Hypothesis call_local : ∀ s1 s2 k now,
  key_state s1 k = key_state s2 k →
  fst (allow_requests s1 k now) = fst (allow_requests s2 k now)
  ∧ key_state (snd (allow_requests s1 k now)) k
    = key_state (snd (allow_requests s2 k now)) k.

(** A call for [k] leaves the state of every other key alone. *)
Hypothesis call_frame : ∀ s k k' now,
  k ≠ k' → key_state (snd (allow_requests s k now)) k' = key_state s k'.

Lemma decisions_only (A : string) (calls : list call) : ∀ s1 s2,
  key_state s1 A = key_state s2 A →
  decisions A calls (fst (run s1 calls)) = fst (run s2 (only A calls))
  ∧ key_state (snd (run s1 calls)) A = key_state (snd (run s2 (only A calls))) A.
Proof.
  induction calls as [|[k now] rest IH]; intros s1 s2 Hs; [done|].
  rewrite run_cons. unfold only in *. simpl.
  destruct (decide (k = A)) as [->|Hne].
  - rewrite !bool_decide_eq_true_2 by done. rewrite run_cons. simpl.
    destruct (call_local s1 s2 A now Hs) as [-> Hs'].
    destruct (IH _ _ Hs') as [-> ->]. done.
  - rewrite !bool_decide_eq_false_2 by done. apply IH.
    by rewrite call_frame.
Qed.

Lemma decisions_same_calls (A : string) (calls1 calls2 : list call) (s : L) :
  only A calls1 = only A calls2 →
  decisions A calls1 (fst (run s calls1)) = decisions A calls2 (fst (run s calls2))
  ∧ key_state (snd (run s calls1)) A = key_state (snd (run s calls2)) A.
Proof.
  intros Hsame.
  destruct (decisions_only A calls1 s s eq_refl) as [-> ->].
  destruct (decisions_only A calls2 s s eq_refl) as [-> ->].
  by rewrite Hsame.
Qed.

End Isolation.

Section PerKeyIsolation.


Lemma sliding_window_local s1 s2 k now :
  sliding_window_view s1 k = sliding_window_view s2 k →
  fst (SW.allow_requests s1 k now) = fst (SW.allow_requests s2 k now)
  ∧ sliding_window_view (snd (SW.allow_requests s1 k now)) k
    = sliding_window_view (snd (SW.allow_requests s2 k now)) k.
Proof.
  unfold sliding_window_view. intros [= Hm HW Hk].
  rewrite !SlidingWindowFacts.allow_lookup.
  pose proof (SlidingWindowFacts.sw_allow_spec s1 k now) as H1.
  pose proof (SlidingWindowFacts.sw_allow_spec s2 k now) as H2. simpl in H1, H2.
  destruct (SW.allow_requests s1 k now) as [ok1 s1'].
  destruct (SW.allow_requests s2 k now) as [ok2 s2']. simpl.
  destruct H1 as (-> & -> & -> & -> & _). destruct H2 as (-> & -> & -> & -> & _).
  unfold SW.deque_of. by rewrite Hm, HW, Hk.
Qed.

Lemma sliding_window_frame s k k' now :
  k ≠ k' → sliding_window_view (snd (SW.allow_requests s k now)) k'
           = sliding_window_view s k'.
Proof.
  intros Hne. pose proof (SlidingWindowFacts.sw_allow_spec s k now) as Hspec.
  simpl in Hspec. destruct (SW.allow_requests s k now) as [ok s']. simpl.
  destruct Hspec as (_ & Hm & HW & _ & Hother).
  unfold sliding_window_view. by rewrite Hm, HW, Hother.
Qed.

Lemma token_bucket_local s1 s2 k now :
  token_bucket_view s1 k = token_bucket_view s2 k →
  fst (TB.allow_requests s1 k now) = fst (TB.allow_requests s2 k now)
  ∧ token_bucket_view (snd (TB.allow_requests s1 k now)) k
    = token_bucket_view (snd (TB.allow_requests s2 k now)) k.
Proof.
  unfold token_bucket_view. intros [= Hc Hr Hk].
  pose proof (TokenBucketFacts.tb_allow_spec s1 k now) as H1.
  pose proof (TokenBucketFacts.tb_allow_spec s2 k now) as H2. simpl in H1, H2.
  destruct (TB.allow_requests s1 k now) as [ok1 s1'].
  destruct (TB.allow_requests s2 k now) as [ok2 s2']. simpl.
  destruct H1 as (-> & -> & -> & -> & _). destruct H2 as (-> & -> & -> & -> & _).
  unfold TB.bucket_of. by rewrite Hc, Hr, Hk.
Qed.

Lemma token_bucket_frame s k k' now :
  k ≠ k' → token_bucket_view (snd (TB.allow_requests s k now)) k'
           = token_bucket_view s k'.
Proof.
  intros Hne. pose proof (TokenBucketFacts.tb_allow_spec s k now) as Hspec.
  simpl in Hspec. destruct (TB.allow_requests s k now) as [ok s']. simpl.
  destruct Hspec as (_ & Hc & Hr & _ & Hother).
  unfold token_bucket_view. by rewrite Hc, Hr, Hother.
Qed.

(** C9.  For both limiters, from any state: two sequences of calls that
    contain the same calls for key [A], at the same times and in the same
    order, return the same decisions for [A] and leave the same state for
    [A], whatever calls for other keys are interleaved in either; and a call
    for a key [B] other than [A] leaves the entry of [A] as it was. *)
Theorem per_key_isolation (A : string) (calls1 calls2 : list call)
    (sw : SW.t) (tb : TB.t) :
  only A calls1 = only A calls2 →
  (decisions A calls1 (fst (run sw calls1)) = decisions A calls2 (fst (run sw calls2))
   ∧ SW.user_requests (snd (run sw calls1)) !! A
     = SW.user_requests (snd (run sw calls2)) !! A)
  ∧ (decisions A calls1 (fst (run tb calls1)) = decisions A calls2 (fst (run tb calls2))
     ∧ TB.buckets (snd (run tb calls1)) !! A
       = TB.buckets (snd (run tb calls2)) !! A)
  ∧ (∀ B now, B ≠ A →
       SW.user_requests (snd (SW.allow_requests sw B now)) !! A
       = SW.user_requests sw !! A
       ∧ TB.buckets (snd (TB.allow_requests tb B now)) !! A
         = TB.buckets tb !! A).
Proof.
  intros Hsame.
  destruct (decisions_same_calls (ops := sliding_window_limiter) sliding_window_view
              sliding_window_local sliding_window_frame A calls1 calls2 sw Hsame)
    as [Hsw Hsw'].
  destruct (decisions_same_calls (ops := token_bucket_limiter) token_bucket_view
              token_bucket_local token_bucket_frame A calls1 calls2 tb Hsame)
    as [Htb Htb'].
  split_and!; [done|by injection Hsw'|done|by injection Htb'|].
  intros B now Hne. split.
  - pose proof (sliding_window_frame sw B A now Hne) as Hv. by injection Hv.
  - pose proof (token_bucket_frame tb B A now Hne) as Hv. by injection Hv.
Qed.

Lemma per_key_isolation_witness :
  let calls1 := [("a"%string, 0); ("b"%string, 0); ("b"%string, 1); ("a"%string, 1)] in
  let calls2 := [("a"%string, 0); ("a"%string, 1)] in
  decisions "a" calls1 (fst (run (SW.init 1 10) calls1))
  = decisions "a" calls2 (fst (run (SW.init 1 10) calls2)).
Proof.
  intros calls1 calls2.
  apply (per_key_isolation "a" calls1 calls2 (SW.init 1 10) (TB.init 1 1)).
  reflexivity.
Defined.

End PerKeyIsolation.

(** ** The factory *)

Section Factory.


(** C5.  [RateLimiterFactory] fails exactly when the kind is not one of
    ['sliding_window'] and ['token_bucket']; the failure is the [ValueError]
    that names the kind, and for such a kind the specification requires a
    failure whatever the configuration.  The numeric parameters are those the
    factory itself passes to the constructors, [100] and [60.0] or [100] and
    [100/60]: they are positive, so that the specification requires no
    failure for a recognized kind, and the limiter returned admits the first
    call of every key.  An unknown kind never yields a limiter. *)
Theorem factory_fails_on_unknown_kind (kind : string) :
  (is_raised (RateLimiterFactory kind) = true
   ↔ kind ≠ "token_bucket"%string ∧ kind ≠ "sliding_window"%string)
  ∧ match RateLimiterFactory kind with
    | Returned l =>
        match l with
        | SlidingWindowLimiter l =>
            kind = "sliding_window"%string ∧ l = SW.init 100 60
        | TokenBucketLimiter l =>
            kind = "token_bucket"%string ∧ l = TB.init 100 hundred_per_minute
        end
        ∧ Forall (λ p, 0 < p) (parameters l)
        ∧ create_fails_as_specified kind (parameters l) = false
        ∧ ∀ k now, fst (allow_requests l k now) = true
    | Raised e =>
        e = ValueError ("Unknown Limiter Type: " +:+ kind)
        ∧ ∀ config, create_fails_as_specified kind config = true
    end.
Proof.
  unfold RateLimiterFactory.
  destruct (String.eqb_spec kind "token_bucket") as [->|Htb].
  - split; [split; [done|intros [? _]; done]|].
    split; [done|]. split; [repeat constructor|]. split; [done|].
    + intros k now. simpl.
      destruct (TokenBucketRuns.holds_fresh 100 hundred_per_minute
                  (TB.init 100 hundred_per_minute) k now) as [Hok _]; [done..|lra|].
      by destruct (TB.allow_requests _ k now).
  - destruct (String.eqb_spec kind "sliding_window") as [->|Hsw].
    + split; [split; [done|intros [_ ?]; done]|].
      split; [done|]. split; [repeat constructor|]. split; [done|].
      * intros k now. simpl.
        pose proof (SlidingWindowFacts.sw_allow_spec (SW.init 100 60) k now) as Hspec.
        simpl in Hspec. destruct (SW.allow_requests _ k now) as [ok l]. simpl.
        destruct Hspec as (-> & _). unfold SW.deque_of. simpl.
        by rewrite lookup_empty.
    + split; [split; done|]. split; [done|]. intros config.
      unfold create_fails_as_specified.
      destruct (String.eqb_spec kind "sliding_window") as [?|_]; [done|].
      by destruct (String.eqb_spec kind "token_bucket") as [?|_].
Qed.

End Factory.

(** * Further properties of the limiters *)

(** ** Lists of clock readings *)

Lemma clock_from_snoc_intro T ts now :
  clock_from T ts → T <= now → Forall (λ t, t <= now) ts → clock_from T (ts ++ [now]).
Proof.
  revert T. induction ts as [|t ts IH]; intros T Hts HT Hall; simpl in *.
  - split; [done|exact I].
  - destruct Hts as [? Hts]. apply Forall_cons_1 in Hall as [? Hall].
    split; [done|]. by apply IH.
Qed.

Lemma nondecreasing_snoc_intro ts now :
  nondecreasing ts → Forall (λ t, t <= now) ts → nondecreasing (ts ++ [now]).
Proof.
  destruct ts as [|t ts]; simpl; [done|]. intros Hts Hall.
  apply Forall_cons_1 in Hall as [? Hall]. by apply clock_from_snoc_intro.
Qed.

Lemma nondecreasing_tail t ts : nondecreasing (t :: ts) → nondecreasing ts.
Proof. simpl. destruct ts as [|t' ts]; simpl; [done|]. tauto. Qed.

Lemma nondecreasing_suffix l1 l2 : nondecreasing (l1 ++ l2) → nondecreasing l2.
Proof.
  induction l1 as [|a l1 IH]; [done|]. intros H. apply IH.
  by apply nondecreasing_tail in H.
Qed.

Module SlidingWindowOrder.
Import SlidingWindowRateLimiter SlidingWindowFacts SlidingWindowRuns.

Lemma follows_later W T T' deque adm :
  T <= T' → follows W T deque adm → follows W T' deque adm.
Proof.
  intros HT ((expired & Heq & Hexp) & Hle & Hs). split_and!; [|..|done].
  - exists expired. split; [done|]. eapply Forall_impl; [exact Hexp|]. simpl. intros; lra.
  - eapply Forall_impl; [exact Hle|]. simpl. intros; lra.
Qed.

Lemma follows_trim W T now deque adm :
  T <= now → follows W T deque adm → follows W now (trim (now - W) deque) adm.
Proof.
  intros HT Hf. apply (follows_later _ _ now) in Hf; [|done].
  destruct Hf as ((expired & Heq & Hexp) & Hle & Hs). split_and!; [|done..].
  destruct (trim_split (now - W) deque) as (expired' & Heq' & Hexp' & _).
  exists (expired ++ expired'). split.
  - by rewrite <- app_assoc, <- Heq'.
  - by apply Forall_app.
Qed.

Lemma follows_admit W now deque adm :
  follows W now deque adm → follows W now (deque ++ [now]) (adm ++ [now]).
Proof.
  intros ((expired & Heq & Hexp) & Hle & Hs). split_and!.
  - exists expired. split; [by rewrite Heq, app_assoc|done].
  - apply Forall_app. split; [done|]. constructor; [lra|constructor].
  - by apply nondecreasing_snoc_intro.
Qed.

Lemma follows_run k calls : ∀ self T adm,
  follows (time_window self) T (deque_of self k) adm →
  clock_from T (map snd calls) →
  follows (time_window self) (last_reading T (map snd calls))
    (deque_of (snd (run self calls)) k)
    (adm ++ admitted k calls (fst (run self calls))).
Proof.
  induction calls as [|[u now] rest IH]; intros self T adm Hf Hclock.
  - simpl. by rewrite app_nil_r.
  - rewrite run_cons. simpl in Hclock. destruct Hclock as [HT Hclock].
    rewrite sliding_window_call.
    pose proof (sw_allow_spec self u now) as Hspec. simpl in Hspec.
    destruct (allow_requests self u now) as [ok self1].
    destruct Hspec as (Hok & Hm1 & HW1 & Hu & Hother). simpl.
    rewrite <- HW1.
    destruct (decide (u = k)) as [->|Hne].
    + rewrite bool_decide_eq_true_2 by done.
      apply (follows_trim _ T now) in Hf; [|done].
      destruct ok; simpl.
      * rewrite <- Hok in Hu. apply follows_admit in Hf. rewrite <- Hu, <- HW1 in Hf.
        specialize (IH self1 now (adm ++ [now]) Hf Hclock).
        by rewrite <- app_assoc in IH.
      * rewrite <- Hok in Hu. rewrite <- Hu, <- HW1 in Hf. by apply (IH self1 now).
    + rewrite bool_decide_eq_false_2, andb_false_r by done.
      apply (IH self1 now); [|done].
      unfold deque_of. rewrite Hother by done. rewrite HW1.
      by apply (follows_later _ T).
Qed.

Lemma follows_init m W T k : follows W T (deque_of (init m W) k) [].
Proof.
  unfold deque_of. simpl. rewrite lookup_empty. simpl. split_and!.
  - exists []. split; [done|constructor].
  - constructor.
  - done.
Qed.

End SlidingWindowOrder.

(** ** Both limiters: the configuration and the set of keys *)

Section Configuration.

Lemma sw_config_allow (self : SW.t) k now :
  SW.max_requests (snd (SW.allow_requests self k now)) = SW.max_requests self
  ∧ SW.time_window (snd (SW.allow_requests self k now)) = SW.time_window self.
Proof.
  pose proof (SlidingWindowFacts.sw_allow_spec self k now) as Hspec. simpl in Hspec.
  destruct (SW.allow_requests self k now). simpl. tauto.
Qed.

Lemma tb_config_allow (self : TB.t) k now :
  TB.capacity (snd (TB.allow_requests self k now)) = TB.capacity self
  ∧ TB.refill_rate (snd (TB.allow_requests self k now)) = TB.refill_rate self.
Proof.
  pose proof (TokenBucketFacts.tb_allow_spec self k now) as Hspec. simpl in Hspec.
  destruct (TB.allow_requests self k now). simpl. tauto.
Qed.

Lemma sw_config_run (self : SW.t) calls :
  SW.max_requests (snd (run self calls)) = SW.max_requests self
  ∧ SW.time_window (snd (run self calls)) = SW.time_window self.
Proof.
  apply (run_invariant (λ s, SW.max_requests s = SW.max_requests self
                             ∧ SW.time_window s = SW.time_window self)); [|done].
  intros s k now [<- <-]. rewrite sliding_window_call. apply sw_config_allow.
Qed.

Lemma tb_config_run (self : TB.t) calls :
  TB.capacity (snd (run self calls)) = TB.capacity self
  ∧ TB.refill_rate (snd (run self calls)) = TB.refill_rate self.
Proof.
  apply (run_invariant (λ s, TB.capacity s = TB.capacity self
                             ∧ TB.refill_rate s = TB.refill_rate self)); [|done].
  intros s k now [<- <-]. rewrite token_bucket_call. apply tb_config_allow.
Qed.

Lemma sw_dom_allow (self : SW.t) k now :
  dom (SW.user_requests (snd (SW.allow_requests self k now)))
  = {[k]} ∪ dom (SW.user_requests self).
Proof.
  unfold SW.allow_requests, SW.ensure. cbv zeta.
  destruct (SW.user_requests self !! k) as [l|]; destruct (Z.ltb _ _); simpl;
    rewrite ?insert_insert_eq; apply dom_insert_L.
Qed.

Lemma tb_dom_allow (self : TB.t) k now :
  dom (TB.buckets (snd (TB.allow_requests self k now))) = {[k]} ∪ dom (TB.buckets self).
Proof.
  unfold TB.allow_requests, TB.ensure. cbv zeta.
  destruct (TB.buckets self !! k) as [b|]; destruct (TB.consume _); simpl;
    rewrite ?insert_insert_eq; apply dom_insert_L.
Qed.

(** X1.  A run never changes the configuration of a limiter: [max_requests]
    and [time_window], [capacity] and [refill_rate] are after any sequence of
    calls what the constructor received. *)
Theorem configuration_is_fixed (sw : SW.t) (tb : TB.t) (calls : list call) :
  SW.max_requests (snd (run sw calls)) = SW.max_requests sw
  ∧ SW.time_window (snd (run sw calls)) = SW.time_window sw
  ∧ TB.capacity (snd (run tb calls)) = TB.capacity tb
  ∧ TB.refill_rate (snd (run tb calls)) = TB.refill_rate tb.
Proof.
  destruct (sw_config_run sw calls) as [? ?].
  destruct (tb_config_run tb calls) as [? ?]. done.
Qed.

(** X2.  State is created on the first call of a key and never removed: after
    a run the keys with an entry are the keys that had one before together
    with the keys that were called, whether their calls were admitted or
    denied. *)
Theorem keys_are_created_and_kept (sw : SW.t) (tb : TB.t) (calls : list call) :
  dom (SW.user_requests (snd (run sw calls))) = dom (SW.user_requests sw) ∪ called calls
  ∧ dom (TB.buckets (snd (run tb calls))) = dom (TB.buckets tb) ∪ called calls.
Proof.
  unfold called. split.
  - revert sw. induction calls as [|[k now] rest IH]; intros sw.
    + simpl. by rewrite union_empty_r_L.
    + rewrite run_cons. cbn [snd]. rewrite IH, sliding_window_call, sw_dom_allow.
      simpl. by rewrite (union_comm_L {[k]}), <- union_assoc_L.
  - revert tb. induction calls as [|[k now] rest IH]; intros tb.
    + simpl. by rewrite union_empty_r_L.
    + rewrite run_cons. cbn [snd]. rewrite IH, token_bucket_call, tb_dom_allow.
      simpl. by rewrite (union_comm_L {[k]}), <- union_assoc_L.
Qed.

End Configuration.

(** ** Sliding window: what the deque holds and when a call is admitted *)

Section SlidingWindowExact.
Import SlidingWindowRateLimiter SlidingWindowFacts SlidingWindowRuns SlidingWindowOrder.

(** X3.  After a run from a new limiter whose clock readings, none below [T],
    never go backwards, the deque of a key holds the most recent of the
    timestamps admitted for that key, in the order of admission: the admitted
    timestamps are in chronological order, none is later than the last
    reading, and those missing from the deque are older than the last
    reading minus [time_window]. *)
Theorem deque_holds_recent_admissions
    (m : Z) (W T : Q) (calls : list call) (k : string) :
  clock_from T (map snd calls) →
  let oks := fst (run (init m W) calls) in
  let self := snd (run (init m W) calls) in
  let last := last_reading T (map snd calls) in
  (∃ expired, admitted k calls oks = expired ++ deque_of self k
              ∧ Forall (λ a, a < last - W) expired)
  ∧ nondecreasing (admitted k calls oks)
  ∧ nondecreasing (deque_of self k)
  ∧ Forall (λ a, a <= last) (admitted k calls oks).
Proof.
  intros Hclock oks self last.
  pose proof (follows_run k calls (init m W) T [] (follows_init m W T k) Hclock)
    as ((expired & Heq & Hexp) & Hle & Hs).
  simpl in Heq, Hexp, Hle, Hs. fold oks in Heq, Hle, Hs. fold self in Heq.
  split_and!; [by exists expired|done| |done].
  rewrite Heq in Hs. by apply nondecreasing_suffix in Hs.
Qed.

Lemma deque_holds_recent_admissions_witness :
  let calls := [("u"%string, 0); ("u"%string, 4); ("u"%string, 14)] in
  nondecreasing (deque_of (snd (run (init 2 10) calls)) "u").
Proof.
  intros calls.
  destruct (deque_holds_recent_admissions 2 10 0 calls "u") as (_ & _ & H & _);
    [|exact H].
  vm_compute. split_and!; (intros [=] || exact I).
Defined.

(** X5.  In every state reached from a new limiter with [1 <= max_requests],
    whatever the clock readings: a call is denied only when the deque of its
    key holds [max_requests] timestamps, and it is denied whenever the deque
    holds [max_requests] timestamps and the first of them, the head of the
    deque, is not below [now - time_window]. *)
Theorem denied_when_full_and_fresh
    (m : Z) (W : Q) (calls : list call) (k : string) (now : Q) :
  (1 ≤ m)%Z →
  let self := snd (run (init m W) calls) in
  (fst (allow_requests self k now) = false → Z.of_nat (length (deque_of self k)) = m)
  ∧ (∀ r rest, deque_of self k = r :: rest →
       Z.of_nat (length (deque_of self k)) = m →
       now - W <= r →
       fst (allow_requests self k now) = false).
Proof.
  intros Hm self.
  destruct (sw_config_run (init m W) calls) as [Hmax HW]. fold self in Hmax, HW.
  simpl in Hmax, HW.
  pose proof (within_limit_run m W calls k) as Hlim. fold self in Hlim.
  rewrite Hmax in Hlim.
  pose proof (sw_allow_spec self k now) as Hspec. simpl in Hspec.
  destruct (allow_requests self k now) as [ok self']. cbn [fst].
  destruct Hspec as (-> & _). rewrite Hmax, HW.
  pose proof (trim_length (now - W) (deque_of self k)) as Hlen.
  rewrite Z.ltb_ge. split.
  - intros Hfull.
    assert (length (trim (now - W) (deque_of self k)) = length (deque_of self k))
      as Hsame by lia.
    rewrite Hsame in Hfull. lia.
  - intros r rest Hdq Hfull Hr.
    assert (trim (now - W) (deque_of self k) = deque_of self k) as ->; [|lia].
    rewrite Hdq. simpl. by assert (Qltb r (now - W) = false) as -> by by apply Qltb_false.
Qed.

Lemma denied_when_full_and_fresh_witness :
  let self := snd (run (init 1 10) [("u"%string, 0)]) in
  fst (allow_requests self "u" 10) = false.
Proof.
  intros self.
  destruct (denied_when_full_and_fresh 1 10 [("u"%string, 0)] "u" 10) as [_ H]; [lia|].
  apply (H 0 []); [reflexivity|reflexivity|]. vm_compute. intros [=].
Defined.

End SlidingWindowExact.

(** ** Sliding window: calls within one window *)

Section SlidingWindowBurst.
Import SlidingWindowRateLimiter SlidingWindowFacts SlidingWindowRuns.

Lemma trim_nothing cutoff l : Forall (λ r, cutoff <= r) l → trim cutoff l = l.
Proof.
  destruct 1 as [|r l Hr _]; [done|]. simpl.
  by assert (Qltb r cutoff = false) as -> by by apply Qltb_false.
Qed.

Lemma burst_run (m : Z) (W s : Q) (k : string) (calls : list call) : ∀ self j,
  max_requests self = m → time_window self = W →
  (0 ≤ j)%Z →
  Forall (λ r, s <= r) (deque_of self k) →
  Z.of_nat (length (deque_of self k)) = Z.max 0 (Z.min j m) →
  Forall (λ t, s <= t ∧ t - W <= s) (map snd calls) →
  ∀ i ok, decisions k calls (fst (run self calls)) !! i = Some ok →
          ok = (j + Z.of_nat i <? m)%Z.
Proof.
  induction calls as [|[u now] rest IH]; intros self j Hm HW Hj Hdq Hlen Hcalls i ok;
    [done|].
  rewrite run_cons. simpl in Hcalls. apply Forall_cons_1 in Hcalls as [[Hlo Hhi] Hcalls].
  rewrite sliding_window_call.
  pose proof (sw_allow_spec self u now) as Hspec. simpl in Hspec.
  destruct (allow_requests self u now) as [ok0 self1].
  destruct Hspec as (Hok & Hm1 & HW1 & Hu & Hother). cbn [fst snd decisions].
  rewrite Hm, HW in *.
  destruct (decide (u = k)) as [->|Hne].
  - rewrite bool_decide_eq_true_2 by done.
    rewrite trim_nothing in Hok, Hu
      by (eapply Forall_impl; [exact Hdq|]; simpl; intros; lra).
    destruct i as [|i]; simpl.
    + intros [= <-]. rewrite Hok, Hlen, Z.add_0_r.
      destruct (Z.ltb_spec j m); [apply Z.ltb_lt|apply Z.ltb_ge]; lia.
    + intros Hi. rewrite (IH self1 (j + 1)%Z) with (i := i) (ok := ok); try done.
      * f_equal. lia.
      * lia.
      * rewrite Hu. destruct (_ <? m)%Z; [|done].
        apply Forall_app. split; [done|]. by constructor.
      * rewrite Hu. destruct (Z.ltb_spec (Z.of_nat (length (deque_of self k))) m);
          [rewrite length_app; simpl|]; lia.
  - rewrite bool_decide_eq_false_2 by done.
    apply (IH self1 j); try done; unfold deque_of in *; by rewrite Hother.
Qed.

(** X6.  When all clock readings of a run from a new limiter lie within one
    interval [[s, s + time_window]], in any order, the calls of a key are
    admitted until [max_requests] of them have been, and denied from then on:
    the call number [i] of the key, counted from 0, is admitted exactly when
    [i < max_requests]. *)
Theorem burst_admits_max_requests
    (m : Z) (W s : Q) (calls : list call) (k : string) (i : nat) (ok : bool) :
  Forall (λ t, s <= t ∧ t - W <= s) (map snd calls) →
  decisions k calls (fst (run (init m W) calls)) !! i = Some ok →
  ok = (Z.of_nat i <? m)%Z.
Proof.
  intros Hcalls Hi. change (Z.of_nat i) with (0 + Z.of_nat i)%Z.
  assert (deque_of (init m W) k = []) as Hnew by (unfold deque_of; simpl; by rewrite lookup_empty).
  apply (burst_run m W s k calls (init m W) 0%Z); rewrite ?Hnew; try done.
  simpl. lia.
Qed.

Lemma burst_admits_max_requests_witness :
  let calls := [("u"%string, 1); ("v"%string, 3); ("u"%string, 2); ("u"%string, 5)] in
  decisions "u" calls (fst (run (init 2 10) calls)) !! 2%nat = Some false.
Proof.
  intros calls. assert (false = (Z.of_nat 2 <? 2)%Z) as Hfalse by reflexivity.
  destruct (decisions "u" calls (fst (run (init 2 10) calls)) !! 2%nat) as [ok|] eqn:E;
    [|discriminate E].
  f_equal. rewrite Hfalse.
  apply (burst_admits_max_requests 2 10 1 calls "u" 2 ok); [|exact E].
  vm_compute. repeat constructor; intros [=].
Defined.

End SlidingWindowBurst.

(** ** Token bucket: how many calls are admitted *)

Lemma clock_from_app T l1 l2 :
  clock_from T (l1 ++ l2) → clock_from T l1 ∧ clock_from (last_reading T l1) l2.
Proof.
  revert T. induction l1 as [|t l1 IH]; intros T; simpl; [done|].
  intros [? H]. destruct (IH t H). done.
Qed.

Lemma py_min_shift c y d : 0 <= d → py_min c (y + d) <= py_min c y + d.
Proof.
  intros Hd. pose proof (py_min_le_l c (y + d)). pose proof (py_min_le_r c (y + d)).
  unfold py_min at 2. destruct (Qltb y c) eqn:E; [lra|]. lra.
Qed.

Lemma inject_nat_succ (n : nat) :
  inject_Z (Z.of_nat (S n)) == inject_Z (Z.of_nat n) + 1.
Proof. rewrite Nat2Z.inj_succ. unfold Z.succ. by rewrite inject_Z_plus. Qed.

Lemma inject_nat_nonneg (n : nat) : 0 <= inject_Z (Z.of_nat n).
Proof. change 0 with (inject_Z 0). rewrite <- Zle_Qle. lia. Qed.

Section TokenBucketRate.
Import TokenBucketRateLimiter TokenBucketFacts TokenBucketRuns.

Variables (c r : Q) (k : string).
Hypothesis c_nonneg : 0 <= c.
Hypothesis r_nonneg : 0 <= r.

Local Abbreviation avail := (λ T self, available c r T (bucket_of self k T)).

Lemma available_range T self :
  bounded c r T self → 0 <= avail T self ∧ avail T self <= c.
Proof.
  intros Hb.
  assert (T <= T) as HT by lra.
  pose proof (in_range_bucket_of c r c_nonneg T self k T Hb HT) as Hk.
  destruct (in_range_refill c r c_nonneg r_nonneg T T _ HT Hk) as (? & ? & _).
  done.
Qed.

Lemma available_later T now self :
  bounded c r T self → T <= now → avail now self <= avail T self + r * (now - T).
Proof.
  intros (Hc & _ & Hall) HT. unfold available, refill, bucket_of. cbn [tokens].
  assert (0 <= r * (now - T)) as Hd by nra.
  destruct (buckets self !! k) as [b|] eqn:E;
    cbn [default from_option tokens last_refill id].
  - destruct (Hall k b E) as (_ & _ & Hlast).
    pose proof (py_min_shift c (tokens b + (T - last_refill b) * r) (r * (now - T)) Hd)
      as Hshift.
    assert (py_min c (tokens b + (now - last_refill b) * r)
            <= py_min c (tokens b + (T - last_refill b) * r + r * (now - T))); [|lra].
    apply py_min_glb; [apply py_min_le_l|].
    pose proof (py_min_le_r c (tokens b + (now - last_refill b) * r)). nra.
  - rewrite Hc.
    assert (py_min c (c + (now - now) * r) <= c) by apply py_min_le_l.
    assert (c <= py_min c (c + (T - T) * r)) by (apply py_min_glb; nra).
    lra.
Qed.

Lemma available_after_consume now b :
  last_refill b = now →
  available c r now (snd (consume b)) + (if fst (consume b) then 1 else 0) <= tokens b.
Proof.
  intros Hlast. unfold available, refill, consume.
  destruct (Qgeb (tokens b) 1); cbn [fst snd tokens last_refill]; rewrite Hlast.
  - pose proof (py_min_le_r c (tokens b - 1 + (now - now) * r)). nra.
  - pose proof (py_min_le_r c (tokens b + (now - now) * r)). nra.
Qed.

Lemma rate_run (s : Q) (calls : list call) : ∀ self T n,
  bounded c r T self →
  avail T self + n <= c + r * (T - s) →
  clock_from T (map snd calls) →
  let T' := last_reading T (map snd calls) in
  let self' := snd (run self calls) in
  avail T' self' + n + inject_Z (Z.of_nat (length (admitted k calls (fst (run self calls)))))
  <= c + r * (T' - s).
Proof.
  induction calls as [|[u now] rest IH]; intros self T n Hb Hpot Hclock.
  - cbn [map last_reading run fst snd admitted length].
    change (inject_Z (Z.of_nat 0)) with 0. lra.
  - rewrite run_cons. simpl in Hclock. destruct Hclock as [HT Hclock].
    rewrite token_bucket_call.
    pose proof (bounded_allow c r c_nonneg r_nonneg T self u now Hb HT) as Hb1.
    pose proof (available_later T now self Hb HT) as Hlater.
    pose proof (tb_allow_spec self u now) as Hspec. simpl in Hspec.
    destruct (allow_requests self u now) as [ok self1].
    destruct Hspec as (Hok & _ & _ & Hu & Hother).
    destruct Hb as (Hc & Hr & _). rewrite Hc, Hr in *.
    cbn [fst snd map last_reading admitted] in *.
    destruct (decide (u = k)) as [->|Hne].
    + rewrite bool_decide_eq_true_2 by done.
      assert (avail now self1 + (if ok then 1 else 0) <= avail now self) as Hstep.
      { unfold bucket_of at 1. rewrite Hu, Hok. cbn [default from_option id].
        by apply available_after_consume. }
      destruct ok; cbn [andb].
      * assert (avail now self1 + (n + 1) <= c + r * (now - s)) as Hpre by lra.
        specialize (IH self1 now (n + 1) Hb1 Hpre Hclock). cbn zeta in IH.
        cbn [length]. rewrite inject_nat_succ. unfold call in *. lra.
      * apply (IH self1 now n Hb1); [lra|done].
    + rewrite bool_decide_eq_false_2, andb_false_r by done.
      apply (IH self1 now n Hb1); [|done].
      assert (bucket_of self1 k now = bucket_of self k now) as ->; [|lra].
      unfold bucket_of. rewrite Hother by done.
      destruct Hb1 as (-> & _). by rewrite Hc.
Qed.

End TokenBucketRate.

Lemma bounded_later c r T T' self : T <= T' → bounded c r T self → bounded c r T' self.
Proof.
  intros HT (Hc & Hr & Hall). split_and!; [done..|].
  intros k b Hb. destruct (Hall k b Hb) as (? & ? & ?). split_and!; [done..|lra].
Qed.

Section TokenBucketFirstCalls.
Import TokenBucketRateLimiter TokenBucketFacts TokenBucketRuns.

Variables (c r : Q) (k : string).
Hypothesis c_nonneg : 0 <= c.
Hypothesis r_nonneg : 0 <= r.

Lemma first_calls_run (calls : list call) : ∀ self T (j : nat),
  bounded c r T self →
  c - inject_Z (Z.of_nat j) <= tokens (bucket_of self k T) →
  clock_from T (map snd calls) →
  ∀ i ok, decisions k calls (fst (run self calls)) !! i = Some ok →
          inject_Z (Z.of_nat (S (j + i))) <= c → ok = true.
Proof.
  induction calls as [|[u now] rest IH]; intros self T j Hb Hlow Hclock i ok; [done|].
  rewrite run_cons. simpl in Hclock. destruct Hclock as [HT Hclock].
  rewrite token_bucket_call.
  pose proof (bounded_allow c r c_nonneg r_nonneg T self u now Hb HT) as Hb1.
  pose proof (in_range_bucket_of c r c_nonneg T self k now Hb HT) as (_ & _ & Hlast).
  pose proof (tb_allow_spec self u now) as Hspec. simpl in Hspec.
  destruct (allow_requests self u now) as [ok0 self1].
  destruct Hspec as (Hok & _ & _ & Hu & Hother).
  cbn [fst snd decisions] in *.
  pose proof Hb as (Hc & Hr & _). pose proof Hb1 as (Hc1 & _). rewrite Hc, Hr in *.
  assert (tokens (bucket_of self k now) = tokens (bucket_of self k T)) as Htok.
  { unfold bucket_of. by destruct (buckets self !! k). }
  destruct (decide (u = k)) as [->|Hne].
  - rewrite bool_decide_eq_true_2 by done.
    set (b0 := refill c r now (bucket_of self k now)) in *.
    assert (c - inject_Z (Z.of_nat j) <= tokens b0) as Hb0.
    { unfold b0, refill. cbn [tokens]. pose proof (inject_nat_nonneg j).
      apply py_min_glb; [lra|]. rewrite Htok. nra. }
    destruct i as [|i]; simpl.
    + intros [= <-] Hi. rewrite Hok. unfold consume.
      rewrite Nat.add_0_r, inject_nat_succ in Hi.
      assert (Qgeb (tokens b0) 1 = true) as -> by (apply Qgeb_true; lra). done.
    + intros Hi Hc'. apply (IH self1 now (S j) Hb1) with (i := i); try done.
      * unfold bucket_of. rewrite Hu. cbn [default from_option id].
        rewrite inject_nat_succ. unfold consume.
        destruct (Qgeb (tokens b0) 1); cbn [snd tokens]; lra.
      * replace (S j + i)%nat with (j + S i)%nat by lia. done.
  - rewrite bool_decide_eq_false_2 by done. intros Hi Hc'.
    apply (IH self1 now j Hb1) with (i := i); try done.
    assert (bucket_of self1 k now = bucket_of self k now) as ->.
    { unfold bucket_of. rewrite Hother by done. by rewrite Hc1, Hc. }
    by rewrite Htok.
Qed.

End TokenBucketFirstCalls.

Lemma same_reading s ts :
  Forall (λ t, t == s) ts →
  ∀ T, T == s → clock_from T ts ∧ last_reading T ts == s.
Proof.
  induction 1 as [|t ts Ht _ IH]; intros T HT; simpl; [done|].
  destruct (IH t Ht) as [? ?]. split; [split; [lra|done]|done].
Qed.

Section TokenBucketAdmission.
Import TokenBucketRateLimiter TokenBucketFacts TokenBucketRuns.



(** X8.  A key starts with a full bucket.  In a run from a new limiter with
    [0 <= refill_rate] and clock readings that never go backwards, the call
    number [i] of a key, counted from 0, is admitted whenever
    [i + 1 <= capacity]. *)
Theorem first_calls_are_admitted
    (c r T : Q) (calls : list call) (k : string) (i : nat) (ok : bool) :
  0 <= r →
  clock_from T (map snd calls) →
  decisions k calls (fst (run (init c r) calls)) !! i = Some ok →
  inject_Z (Z.of_nat (S i)) <= c →
  ok = true.
Proof.
  intros Hr Hclock Hi Hc.
  assert (0 <= c) as Hc0 by (pose proof (inject_nat_nonneg (S i)); lra).
  apply (first_calls_run c r k Hc0 Hr calls (init c r) T 0 (bounded_init c r T))
    with (i := i); try done.
  unfold bucket_of, init. cbn [buckets capacity]. rewrite lookup_empty.
  cbn [default from_option tokens]. change (inject_Z (Z.of_nat 0)) with 0. lra.
Qed.

Lemma first_calls_are_admitted_witness :
  let calls := [("u"%string, 0); ("v"%string, 0); ("u"%string, 0)] in
  decisions "u" calls (fst (run (init 2 0) calls)) !! 1%nat = Some true.
Proof.
  intros calls.
  destruct (decisions "u" calls (fst (run (init 2 0) calls)) !! 1%nat) as [ok|] eqn:E;
    [|discriminate E].
  f_equal.
  apply (first_calls_are_admitted 2 0 0 calls "u" 1 ok); [lra| |exact E|].
  - vm_compute. split_and!; (intros [=] || exact I).
  - vm_compute. intros [=].
Defined.

End TokenBucketAdmission.

(** ** The script *)

Lemma run_length {L} `{RateLimiter L} (self : L) calls :
  length (fst (run self calls)) = length calls.
Proof.
  revert self. induction calls as [|[k now] rest IH]; intros self; [done|].
  rewrite run_cons. simpl. by rewrite IH.
Qed.

Lemma decisions_single k calls : ∀ oks,
  Forall (λ c : call, fst c = k) calls → length oks = length calls →
  decisions k calls oks = oks.
Proof.
  induction calls as [|[u now] rest IH]; intros [|ok oks] Hall Hlen; try done.
  apply Forall_cons_1 in Hall as [Hu Hall]. simpl in Hu. subst u. simpl.
  rewrite bool_decide_eq_true_2 by done. f_equal. apply IH; [done|].
  simpl in Hlen. lia.
Qed.

Lemma admitted_length_le k calls : ∀ oks,
  (length (admitted k calls oks) ≤ length calls)%nat.
Proof.
  induction calls as [|[u now] rest IH]; intros [|ok oks]; simpl; try lia.
  specialize (IH oks). destruct (ok && bool_decide (u = k)); simpl; lia.
Qed.

Lemma admitted_length_ge k calls : ∀ oks (n : nat),
  Forall (λ c : call, fst c = k) calls → length oks = length calls →
  (n ≤ length calls)%nat →
  (∀ i, (i < n)%nat → oks !! i = Some true) →
  (n ≤ length (admitted k calls oks))%nat.
Proof.
  induction calls as [|[u now] rest IH]; intros [|ok oks] n Hall Hlen Hn Hi;
    simpl in *; try lia.
  apply Forall_cons_1 in Hall as [Hu Hall]. simpl in Hu. subst u.
  rewrite bool_decide_eq_true_2 by done. destruct n as [|n]; [lia|].
  assert (ok = true) as -> by (specialize (Hi O ltac:(lia)); by injection Hi).
  simpl. apply le_n_S. apply IH; [done|lia|lia|].
  intros i Hlt. apply (Hi (S i)). lia.
Qed.

Lemma pointwise_list (f : nat → bool) (l : list bool) :
  (∀ i ok, l !! i = Some ok → ok = f i) → l = map f (seq 0 (length l)).
Proof.
  intros Hf. apply list_eq. intros i. rewrite list_lookup_fmap.
  destruct (l !! i) as [ok|] eqn:E.
  - rewrite (Hf i ok E). apply lookup_lt_Some in E.
    by rewrite lookup_seq_lt.
  - apply lookup_ge_None in E. by rewrite lookup_seq_ge.
Qed.

Section Clock.
Variable clock : nat → Q.
Hypothesis clock_step : ∀ i, clock i <= clock (S i).

Lemma clock_mono i j : (i ≤ j)%nat → clock i <= clock j.
Proof.
  induction 1 as [|j _ IH]; [lra|]. specialize (clock_step j). lra.
Qed.

Lemma readings_all user_id tick n :
  Forall (λ c : call, fst c = user_id) (readings clock user_id tick n).
Proof.
  unfold readings. apply List.Forall_forall. intros c Hc.
  apply in_map_iff in Hc as (j & <- & _). done.
Qed.

Lemma readings_length user_id tick n : length (readings clock user_id tick n) = n.
Proof. unfold readings. by rewrite length_map, length_seq. Qed.

Lemma readings_clock user_id T tick n :
  T <= clock tick → clock_from T (map snd (readings clock user_id tick n)).
Proof.
  revert T tick. induction n as [|n IH]; intros T tick HT; [done|].
  simpl. split; [done|]. apply IH. apply clock_step.
Qed.

Lemma readings_last user_id T tick n :
  last_reading T (map snd (readings clock user_id tick (S n))) = clock (tick + n)%nat.
Proof.
  revert T tick. induction n as [|n IH]; intros T tick.
  - simpl. by rewrite Nat.add_0_r.
  - change (readings clock user_id tick (S (S n)))
      with ((user_id, clock tick) :: readings clock user_id (S tick) (S n)).
    cbn [map snd last_reading]. rewrite IH. f_equal. lia.
Qed.

Lemma readings_within user_id tick n :
  Forall (λ t, clock tick <= t ∧ t <= clock (tick + n)%nat)
    (map snd (readings clock user_id tick (S n))).
Proof.
  apply List.Forall_forall. intros t Ht. apply in_map_iff in Ht as ([u t'] & <- & Hc).
  unfold readings in Hc. apply in_map_iff in Hc as (j & [= <- <-] & Hj).
  apply in_seq in Hj. simpl. split; apply clock_mono; lia.
Qed.

End Clock.

Section Dispatch.

Lemma sliding_window_dispatch (l : SW.t) k now :
  allow_requests (SlidingWindowLimiter l) k now
  = (fst (SW.allow_requests l k now), SlidingWindowLimiter (snd (SW.allow_requests l k now))).
Proof. simpl. by destruct (SW.allow_requests l k now). Qed.

Lemma token_bucket_dispatch (l : TB.t) k now :
  allow_requests (TokenBucketLimiter l) k now
  = (fst (TB.allow_requests l k now), TokenBucketLimiter (snd (TB.allow_requests l k now))).
Proof. simpl. by destruct (TB.allow_requests l k now). Qed.

End Dispatch.

Section Script.
Import Main.

Variable clock : nat → Q.

Lemma sliding_window_loop_denied (d : nat) : ∀ n i tick (l : SW.t),
  (d < n)%nat →
  fst (run l (readings clock user tick (S d))) = replicate d true ++ [false] →
  sliding_window_loop clock n i tick (SlidingWindowLimiter l)
  = (["Request " +:+ pretty (i + d + 1)%nat +:+ " denied"], (tick + d + 1)%nat).
Proof.
  induction d as [|d IH]; intros [|n] i tick l Hd Hrun; try lia.
  - change (readings clock user tick 1) with [(user, clock tick)] in Hrun.
    rewrite run_cons, sliding_window_call in Hrun. injection Hrun as Hok.
    cbn [sliding_window_loop]. rewrite sliding_window_dispatch, Hok.
    replace (i + 0 + 1)%nat with (i + 1)%nat by lia.
    by replace (tick + 0 + 1)%nat with (S tick) by lia.
  - change (readings clock user tick (S (S d)))
      with ((user, clock tick) :: readings clock user (S tick) (S d)) in Hrun.
    rewrite run_cons, sliding_window_call in Hrun. injection Hrun as Hok Hrest.
    cbn [sliding_window_loop]. rewrite sliding_window_dispatch, Hok.
    rewrite (IH n (S i) (S tick) _ ltac:(lia) Hrest).
    replace (S i + d + 1)%nat with (i + S d + 1)%nat by lia.
    by replace (S tick + d + 1)%nat with (tick + S d + 1)%nat by lia.
Qed.

Lemma token_bucket_loop_run (n : nat) : ∀ tick (l : TB.t) count,
  token_bucket_loop clock n tick (TokenBucketLimiter l) count
  = ((count + length (admitted user (readings clock user tick n)
                        (fst (run l (readings clock user tick n)))))%nat,
     (tick + n)%nat,
     TokenBucketLimiter (snd (run l (readings clock user tick n)))).
Proof.
  induction n as [|n IH]; intros tick l count.
  - simpl. by rewrite !Nat.add_0_r.
  - change (readings clock user tick (S n))
      with ((user, clock tick) :: readings clock user (S tick) n).
    rewrite run_cons, token_bucket_call. cbn [token_bucket_loop fst snd admitted].
    rewrite token_bucket_dispatch, IH. rewrite bool_decide_eq_true_2 by done.
    destruct (fst (TB.allow_requests l user (clock tick))); cbn [andb length].
    + rewrite <- Nat.add_assoc, (Nat.add_1_l (length _)).
      by replace (S tick + n)%nat with (tick + S n)%nat by lia.
    + by replace (S tick + n)%nat with (tick + S n)%nat by lia.
Qed.

(** After a gap of [1 / refill_rate] since the last reading, any key is
    admitted. *)
Lemma admitted_after_gap (c r T : Q) (self : TB.t) (k : string) (now : Q) :
  1 <= c → 0 <= r → bounded c r T self → 1 <= (now - T) * r → T <= now →
  fst (TB.allow_requests self k now) = true.
Proof.
  intros Hc Hr Hb Hgap HT.
  assert (0 <= c) as Hc0 by lra.
  pose proof (in_range_bucket_of c r Hc0 T self k now Hb HT) as (Hlo & Hhi & Hlast).
  destruct Hb as (Hcap & Hrate & Hall).
  pose proof (TokenBucketFacts.tb_allow_spec self k now) as Hspec. simpl in Hspec.
  destruct (TB.allow_requests self k now) as [ok self']. cbn [fst].
  destruct Hspec as (-> & _). rewrite Hcap, Hrate.
  unfold TB.consume, TB.refill. cbn [TB.tokens].
  assert (Qgeb (py_min c (TB.tokens (TB.bucket_of self k now)
                          + (now - TB.last_refill (TB.bucket_of self k now)) * r)) 1
          = true) as ->; [|done].
  apply Qgeb_true, py_min_glb; [done|].
  unfold TB.bucket_of in *. destruct (TB.buckets self !! k) as [b|] eqn:E;
    cbn [default from_option id TB.tokens TB.last_refill] in *.
  - destruct (Hall k b E) as (_ & _ & HlastT). nra.
  - rewrite Hcap in *. nra.
Qed.

End Script.

Section ScriptOutput.
Import Main.

(** X10.  The script.  When the clock never goes backwards, the first 101
    readings lie within 60 seconds and [time.sleep(1)] lets at least one
    second pass before the last reading, the script prints five lines: the
    sliding window denies request 101 (after 100 admitted ones, which ends
    the first loop), the token bucket admits at least 100 of its 105
    requests, and the request after the sleep is admitted. *)
Theorem script_output (clock : nat → Q) :
  (∀ i, clock i <= clock (S i)) →
  clock 100%nat - 60 <= clock 0%nat →
  clock 205%nat + 1 <= clock 206%nat →
  ∃ allowed_count : nat,
    (100 ≤ allowed_count ≤ 105)%nat
    ∧ main clock
      = Returned ["Sliding Window Test: "; "Request 101 denied"; "Token Bucket Test: ";
                  "Allowed: " +:+ pretty allowed_count +:+ "/105";
                  "post wait request allowed"].
Proof.
  intros Hstep Hwindow Hsleep.
  (* the first loop *)
  assert (fst (run (SW.init 100 60) (readings clock user 0 101))
          = replicate 100 true ++ [false]) as Hsliding.
  { set (calls := readings clock user 0 101).
    pose proof (run_length (SW.init 100 60) calls) as Hlen.
    unfold calls in Hlen at 2. rewrite readings_length in Hlen.
    rewrite (pointwise_list (λ i, (Z.of_nat i <? 100)%Z) (fst (run (SW.init 100 60) calls))).
    { by rewrite Hlen. }
    intros i ok Hi.
    assert (decisions user calls (fst (run (SW.init 100 60) calls))
            = fst (run (SW.init 100 60) calls)) as Hdec
      by (apply decisions_single; [apply readings_all|
          rewrite Hlen; unfold calls; by rewrite readings_length]).
    rewrite <- Hdec in Hi.
    change (Z.of_nat i) with (0 + Z.of_nat i)%Z.
    assert (SW.deque_of (SW.init 100 60) user = []) as Hnew
      by (unfold SW.deque_of; simpl; by rewrite lookup_empty).
    apply (burst_run 100 60 (clock 0%nat) user calls (SW.init 100 60) 0%Z);
      [done|done|done|rewrite Hnew; constructor|by rewrite Hnew| |exact Hi].
    eapply Forall_impl; [apply (readings_within clock Hstep user 0 100)|].
    simpl. intros t [? ?]. split; [done|lra]. }
  (* the second loop *)
  set (calls := readings clock user 101 105).
  set (start := TB.init 100 hundred_per_minute).
  assert (0 <= 100) as Hc by lra.
  assert (1 <= hundred_per_minute) as Hrate by (unfold hundred_per_minute; lra).
  assert (0 <= hundred_per_minute) as Hr by lra.
  assert (clock_from (clock 101%nat) (map snd calls)) as Hclock
    by (apply (readings_clock clock Hstep); lra).
  assert (last_reading (clock 101%nat) (map snd calls) = clock 205%nat) as Hlast
    by apply (readings_last clock user (clock 101%nat) 101 104).
  pose proof (bounded_init 100 hundred_per_minute (clock 101%nat)) as Hstart.
  fold start in Hstart.
  pose proof (bounded_run 100 hundred_per_minute Hc Hr calls _ _ Hstart Hclock) as Hend.
  rewrite Hlast in Hend.
  pose proof (run_length start calls) as Hlen.
  unfold calls in Hlen at 2. rewrite readings_length in Hlen.
  remember (length (admitted user calls (fst (run start calls)))) as allowed_count
    eqn:Hcount.
  exists allowed_count. split_and!.
  - rewrite Hcount.
    apply admitted_length_ge;
      [apply readings_all|rewrite Hlen; unfold calls; by rewrite readings_length|
       unfold calls; rewrite readings_length; lia|].
    intros i Hi.
    destruct (fst (run start calls) !! i) as [ok|] eqn:E;
      [|apply lookup_ge_None in E; lia].
    f_equal.
    assert (decisions user calls (fst (run start calls)) = fst (run start calls)) as Hdec
      by (apply decisions_single; [apply readings_all|
          rewrite Hlen; unfold calls; by rewrite readings_length]).
    rewrite <- Hdec in E.
    apply (first_calls_run 100 hundred_per_minute user Hc Hr calls start (clock 101%nat) 0
             Hstart)
      with (i := i); [|exact Hclock|exact E|].
    + unfold start, TB.bucket_of, TB.init. cbn [TB.buckets TB.capacity].
      rewrite lookup_empty. cbn [default from_option TB.tokens].
      change (inject_Z (Z.of_nat 0)) with 0. lra.
    + change (inject_Z (Z.of_nat (S (0 + i)))) with (inject_Z (Z.of_nat (S i))).
      change 100 with (inject_Z 100). rewrite <- Zle_Qle. lia.
  - rewrite Hcount. etrans; [apply admitted_length_le|].
    unfold calls. by rewrite readings_length.
  - unfold main.
    change (RateLimiterFactory "sliding_window")
      with (Returned (SlidingWindowLimiter (SW.init 100 60))).
    change (RateLimiterFactory "token_bucket") with (Returned (TokenBucketLimiter start)).
    cbv beta iota zeta.
    rewrite (sliding_window_loop_denied clock 100 105 0 0 (SW.init 100 60) ltac:(lia) Hsliding).
    change (0 + 100 + 1)%nat with 101%nat.
    rewrite token_bucket_loop_run. fold calls. rewrite <- Hcount.
    change (101 + 105)%nat with 206%nat. rewrite token_bucket_dispatch.
    rewrite (admitted_after_gap 100 hundred_per_minute (clock 205%nat) _ user
               (clock 206%nat));
      [reflexivity|lra|done|done|nra|lra].
Qed.

Lemma script_output_witness :
  ∃ allowed_count : nat,
    main (λ n, if (n <? 206)%nat then 0 else 1)
    = Returned ["Sliding Window Test: "; "Request 101 denied"; "Token Bucket Test: ";
                "Allowed: " +:+ pretty allowed_count +:+ "/105";
                "post wait request allowed"].
Proof.
  destruct (script_output (λ n, if (n <? 206)%nat then 0 else 1)) as (n & _ & H).
  - intros i. destruct (S i <? 206)%nat eqn:E1, (i <? 206)%nat eqn:E2; try lra.
    apply Nat.ltb_lt in E1. apply Nat.ltb_ge in E2. lia.
  - vm_compute. intros [=].
  - vm_compute. intros [=].
  - exists n. exact H.
Defined.

End ScriptOutput.

(** ** Token bucket: what holds whatever the clock does *)

Section TokenBucketAnyClock.
Import TokenBucketRateLimiter TokenBucketFacts.

Lemma capped_allow (self : t) k now :
  (∀ k' b, buckets self !! k' = Some b → tokens b <= capacity self) →
  ∀ k' b, buckets (snd (allow_requests self k now)) !! k' = Some b →
          tokens b <= capacity (snd (allow_requests self k now)).
Proof.
  intros Hall k' b. pose proof (tb_allow_spec self k now) as Hspec. simpl in Hspec.
  destruct (allow_requests self k now) as [ok self']. cbn [snd].
  destruct Hspec as (_ & -> & _ & Hk & Hother).
  destruct (decide (k = k')) as [<-|Hne].
  - rewrite Hk. intros [= <-]. unfold consume, refill. cbn [tokens].
    pose proof (py_min_le_l (capacity self)
      (tokens (bucket_of self k now)
       + (now - last_refill (bucket_of self k now)) * refill_rate self)).
    destruct (Qgeb _ 1); cbn [snd tokens]; lra.
  - rewrite Hother by done. apply Hall.
Qed.

(** X11.  No bucket ever holds more than [capacity] tokens: this needs no
    assumption on the clock readings, which may go backwards, nor on the
    parameters. *)
Theorem tokens_never_exceed_capacity
    (c r : Q) (calls : list call) (k : string) (b : bucket) :
  buckets (snd (run (init c r) calls)) !! k = Some b → tokens b <= c.
Proof.
  destruct (tb_config_run (init c r) calls) as [Hc _]. simpl in Hc.
  assert (∀ k' b', buckets (snd (run (init c r) calls)) !! k' = Some b'
                   → tokens b' <= capacity (snd (run (init c r) calls))) as Hall.
  { apply (run_invariant (λ s, ∀ k' b', buckets s !! k' = Some b' → tokens b' <= capacity s)).
    - intros s k0 now0 Hall. rewrite token_bucket_call. by apply capped_allow.
    - intros k' b'. simpl. by rewrite lookup_empty. }
  intros Hb. apply Hall in Hb. by rewrite Hc in Hb.
Qed.

Lemma tokens_never_exceed_capacity_witness :
  let calls := [("u"%string, 10); ("u"%string, 2)] in
  buckets (snd (run (init 5 1) calls)) !! "u" = Some (mk_bucket (-4) 2) ∧ -4 <= 5.
Proof.
  intros calls. split; [reflexivity|].
  apply (tokens_never_exceed_capacity 5 1 calls "u" (mk_bucket (-4) 2)). reflexivity.
Defined.

Lemma only_cons_eq k now rest : only k ((k, now) :: rest) = (k, now) :: only k rest.
Proof. unfold only. simpl. by rewrite bool_decide_eq_true_2. Qed.

Lemma only_cons_ne u k now rest : u ≠ k → only k ((u, now) :: rest) = only k rest.
Proof. intros. unfold only. simpl. by rewrite bool_decide_eq_false_2. Qed.

Lemma last_call_run (k : string) (calls : list call) : ∀ self : t,
  last_refill <$> buckets (snd (run self calls)) !! k
  = match last (map snd (only k calls)) with
    | Some now => Some now
    | None => last_refill <$> buckets self !! k
    end.
Proof.
  induction calls as [|[u now] rest IH]; intros self; [done|].
  rewrite run_cons, token_bucket_call. cbn [snd]. rewrite IH.
  pose proof (tb_allow_spec self u now) as Hspec. simpl in Hspec.
  destruct (allow_requests self u now) as [ok self1]. cbn [snd].
  destruct Hspec as (_ & _ & _ & Hu & Hother).
  destruct (decide (u = k)) as [->|Hne].
  - rewrite only_cons_eq. cbn [map snd].
    destruct (last (map snd (only k rest))) as [t|] eqn:E.
    + destruct (map snd (only k rest)); [done|]. by rewrite last_cons, E.
    + apply last_None in E. rewrite E, Hu. simpl.
      unfold consume, refill. by destruct (Qgeb _ 1).
  - rewrite only_cons_ne by done.
    destruct (last _); [done|]. by rewrite Hother.
Qed.

(** X12.  After a run from a new limiter, whatever the clock readings, the
    bucket of a key is stamped with the time of the last call made for that
    key, admitted or denied; a key that was never called has no bucket. *)
Theorem last_refill_is_last_call (c r : Q) (calls : list call) (k : string) :
  last_refill <$> buckets (snd (run (init c r) calls)) !! k
  = last (map snd (only k calls)).
Proof.
  rewrite last_call_run. simpl. rewrite lookup_empty. simpl.
  by destruct (last _).
Qed.

End TokenBucketAnyClock.
